(** * smssing: verification-code store, recipient normalisation and the
      bearer-token gate of [src/index.js]

    The service keeps one piece of state, the JavaScript [Map]
    [verificationCodes] from phone number to [{ code, expiresAt }].  The
    handlers read two sources of non-determinism, [Date.now()] and
    [Math.random()]; both are made explicit arguments here, so every
    handler is a function from the store (and its inputs) to a response and
    a new store.

    Each handler of the code store is written in two layers, as the file
    itself is laid out: the field check at its top ([send_code],
    [verify_code]) and, past it, the lines that work on the map ([issue],
    [verify]).  [sweep] is the timer callback.

    Conventions of the embedding:
    - [Date.now()] is an integer number of milliseconds: [Z];
    - a number is a double, given by the rational it denotes ([binary64]);
      [*] and [+] round their exact result to the nearest double, ties to
      even ([round64]), as IEEE 754 prescribes; [Math.random()] is such a
      double [r];
    - request bodies are objects whose fields are strings or absent
      ([option string]); a field of another JSON type, which passes the
      truthiness checks and then fails at [startsWith], and a request
      without a body are outside the model;
    - the [Map] is a [gmap string entry]: one value per key, which is what
      [Map.set], [Map.get] and [Map.delete] provide; the order of
      iteration plays no role in any handler;
    - the provider's SDK and [jwt.verify] are parameters. *)

From Stdlib Require Import Ascii String ZArith QArith Qround Qabs Qpower Lia Lqa.
From Corelib Require Import PrimFloat FloatOps SpecFloat.
From stdpp Require Import base option strings list gmap fin_maps pretty.

Local Open Scope string_scope.
Local Open Scope Z_scope.

(** [lia] over quotients and remainders by constants. *)
Local Ltac Zify.zify_post_hook ::= Z.to_euclidean_division_equations.

(** ** JavaScript values the handlers see *)

(** A request field: [None] is [undefined] (the field is missing). *)
Definition truthy (v : option string) : bool :=
  match v with
  | None => false
  | Some EmptyString => false
  | Some (String _ _) => true
  end.

(** [a || b] on strings that may be undefined. *)
Definition js_or (a : option string) (b : string) : string :=
  match a with
  | Some (String c s) => String c s
  | _ => b
  end.

(** [s.split(sep)] for a one-character separator. *)
Fixpoint split (sep : ascii) (s : string) : list string :=
  match s with
  | EmptyString => [EmptyString]
  | String c rest =>
      if Ascii.eqb c sep then EmptyString :: split sep rest
      else match split sep rest with
           | [] => [String c EmptyString]
           | w :: ws => String c w :: ws
           end
  end.

(** [Number.prototype.toString] on an integer: its decimal digits. *)
Definition toString (n : Z) : string := pretty n.

(** ** Responses *)

(** What a handler passes to [res.status(..).json(..)] / [res.json(..)]. *)
Inductive response : Type :=
  | ErrorJson (status : Z) (error : string) (details : option string)
  | CodeSent (code messageSid : string)
  | CodeVerified
  | MessageSent (messageSid status : string).

Definition status_of (r : response) : Z :=
  match r with
  | ErrorJson st _ _ => st
  | _ => 200
  end.

Definition PhoneRequired : response :=
  ErrorJson 400 "Phone number is required" None.
Definition FieldsRequired : response :=
  ErrorJson 400 "Phone number and code are required" None.
Definition InvalidOrExpired : response :=
  ErrorJson 400 "Invalid or expired code" None.
Definition IncorrectCode : response :=
  ErrorJson 400 "Incorrect code" None.
Definition ToBodyRequired : response :=
  ErrorJson 400 "Phone number and message body are required" None.
Definition Unauthenticated : response :=
  ErrorJson 401 "Access token required" None.
Definition Forbidden : response :=
  ErrorJson 403 "Invalid or expired token" None.

(** ** The verification-code store *)

Record entry : Type := { code : string; expiresAt : Z }.

Global Instance entry_eq_dec : EqDecision entry.
Proof. solve_decision. Defined.

Abbreviation verificationCodes := (gmap string entry).

(** Line 37: [data.expiresAt < now]. *)
Definition expired (now : Z) (data : entry) : bool := expiresAt data <? now.

(** Lines 34-41, the [setInterval] callback: walk the entries and delete
    from the map those that have expired.  Deleting the entry under the
    iterator does not disturb a [Map] iteration, so every entry present at
    the start is visited once. *)
Definition sweep (now : Z) (m : verificationCodes) : verificationCodes :=
  map_fold (λ phone data acc, if expired now data then delete phone acc else acc)
           m m.

(** *** Double arithmetic

    The numbers of line 55 are IEEE 754 binary64 values.  A finite double
    is a rational [m * 2^e] with [|m| < 2^53] and [-1074 <= e <= 971]. *)

Definition pow2 (e : Z) : Q := (2 ^ e)%Q.

Definition binary64 (x : Q) : Prop :=
  ∃ m e : Z, Z.abs m < 2 ^ 53 ∧ -1074 ≤ e ≤ 971
             ∧ (x == inject_Z m * pow2 e)%Q.

(** The exponent [e] with [2^e <= x < 2^(e+1)], for [x > 0]. *)
Definition ilog2 (x : Q) : Z :=
  let e0 := Z.log2 (Qnum x) - Z.log2 (Zpos (Qden x)) in
  if Qle_bool (pow2 e0) x then e0 else e0 - 1.

(** The nearest integer, the even one of the two when half-way. *)
Definition rne (q : Q) : Z :=
  let f := Qfloor q in
  match (q - inject_Z f ?= 1 # 2)%Q with
  | Lt => f
  | Gt => f + 1
  | Eq => if Z.even f then f else f + 1
  end.

(** The exponent of the last place of a double in the binade [e]: 53
    significant bits, and no exponent below that of the subnormals. *)
Definition fexp (e : Z) : Z := Z.max (e - 52) (-1074).

(** The double an exact result is rounded to (round to nearest, ties to
    even).  Results of magnitude [2^1024] or more, which a double turns
    into an infinity, do not occur at line 55, whose operands are below
    [2^20]. *)
Definition round64 (x : Q) : Q :=
  if Qeq_bool x 0 then 0%Q
  else let c := fexp (ilog2 (Qabs x)) in
       (inject_Z (rne (x / pow2 c)) * pow2 c)%Q.

(** The rational a machine double denotes (zero for an infinity or a
    NaN); it serves to compare [round64] with the machine's arithmetic. *)
Definition float_value (f : float) : Q :=
  match Prim2SF f with
  | S754_finite s m e =>
      ((if s then -1 else 1) * inject_Z (Zpos m) * pow2 e)%Q
  | _ => 0%Q
  end.

(** Line 55 on machine doubles, up to [Math.floor]. *)
Definition line55_machine (r : float) : float := (100000 + r * 900000)%float.

(** Line 55: [Math.floor(100000 + Math.random() * 900000).toString()]:
    the product is rounded, then the sum; [Math.floor] is exact. *)
Definition generate_code (r : Q) : string :=
  toString (Qfloor (round64 (100000 + round64 (r * 900000)))).

(** Lines 55-59: generate the code, compute the expiry and store the entry
    under the phone number.  Returns the code and the new store. *)
Definition issue (m : verificationCodes) (now : Z) (r : Q) (phoneNumber : string)
  : string * verificationCodes :=
  let c := generate_code r in
  let e := now + 5 * 60 * 1000 in
  (c, <[phoneNumber := {| code := c; expiresAt := e |}]> m).

(** Lines 91-104: look the entry up, reject when it is missing or expired,
    reject a different code, otherwise delete the entry and accept. *)
Definition verify (m : verificationCodes) (now : Z) (phoneNumber supplied : string)
  : response * verificationCodes :=
  match m !! phoneNumber with
  | None => (InvalidOrExpired, m)
  | Some stored =>
      if expired now stored then (InvalidOrExpired, m)
      else if negb (String.eqb (code stored) supplied) then (IncorrectCode, m)
      else (CodeVerified, delete phoneNumber m)
  end.

(** ** Requests and the messaging provider *)

(** [req.body] as the handlers destructure it. *)
Module Body.
Record t : Type :=
  { phoneNumber : option string;
    code : option string;
    to : option string;
    body : option string }.
End Body.

(** The value of a field once the truthiness guard has let it through. *)
Definition str (v : option string) : string := default EmptyString v.

(** The argument and the result of [client.messages.create]. *)
Module Msg.
Record params : Type := { body : string; from : string; to : string }.
Record t : Type := { sid : string; status : string }.
End Msg.

(** Lines 62, 118 and 146:
    [to.startsWith('whatsapp:') ? to : `whatsapp:${to}`]. *)
Definition formattedTo (to : string) : string :=
  if String.prefix "whatsapp:" to then to else "whatsapp:" ++ to.

Section Handlers.

(** [process.env.TWILIO_PHONE_NUMBER]; the process exits at start-up
    unless it is set. *)
Variable twilioPhoneNumber : string.

(** [client.messages.create], the provider's SDK: the promise resolves
    to a message or rejects with an error, of which the handlers read
    [error.message]. *)
Variable create : Msg.params → string + Msg.t.

(** Lines 46-82, [POST /api/auth/send-code]. *)
Definition send_code (m : verificationCodes) (now : Z) (r : Q) (b : Body.t)
  : response * verificationCodes :=
  if negb (truthy (Body.phoneNumber b)) then (PhoneRequired, m)
  else
    let phoneNumber := str (Body.phoneNumber b) in
    let '(c, m') := issue m now r phoneNumber in
    match create {| Msg.body := "Your verification code is: " ++ c;
                    Msg.from := "whatsapp:" ++ twilioPhoneNumber;
                    Msg.to := formattedTo phoneNumber |} with
    | inr message => (CodeSent c (Msg.sid message), m')
    | inl error =>
        (ErrorJson 500 "Failed to send verification code" (Some error), m')
    end.

(** Lines 85-105, [POST /api/auth/verify-code]. *)
Definition verify_code (m : verificationCodes) (now : Z) (b : Body.t)
  : response * verificationCodes :=
  if negb (truthy (Body.phoneNumber b)) || negb (truthy (Body.code b))
  then (FieldsRequired, m)
  else verify m now (str (Body.phoneNumber b)) (str (Body.code b)).

(** Lines 112-134, the body shared by the two message routes. *)
Definition dispatch (b : Body.t) : response :=
  if negb (truthy (Body.to b)) || negb (truthy (Body.body b))
  then ToBodyRequired
  else
    match create {| Msg.body := str (Body.body b);
                    Msg.from := "whatsapp:" ++ twilioPhoneNumber;
                    Msg.to := formattedTo (str (Body.to b)) |} with
    | inr message => MessageSent (Msg.sid message) (Msg.status message)
    | inl error =>
        ErrorJson 500 "Failed to send WhatsApp message" (Some error)
    end.

(** Lines 138-163, [POST /api/whatsapp/send-message] (no gate). *)
Definition send_message (b : Body.t) : response := dispatch b.

(** *** The bearer-token gate *)

(** The decoded payload [jwt.verify] hands to its callback. *)
Variable claims : Type.

(** [jwt.verify(token, secret, callback)] of the jsonwebtoken package:
    [None] when the callback receives an error, [Some user] otherwise. *)
Variable jwt_verify : string → string → option claims.

(** [process.env.JWT_SECRET]. *)
Variable env_JWT_SECRET : option string.

(** Line 28. *)
Definition JWT_SECRET : string :=
  js_or env_JWT_SECRET "your-secret-key-change-in-production".

Record request : Type :=
  { authorization : option string;   (* req.headers['authorization'] *)
    body : Body.t;                   (* req.body *)
    user : option claims }.          (* req.user *)

(** Line 169: [authHeader && authHeader.split(' ')[1]]. *)
Definition token_of (authHeader : option string) : option string :=
  if truthy authHeader then split " " (str authHeader) !! 1%nat
  else authHeader.

(** A middleware either answers the request or calls [next()]. *)
Inductive outcome : Type :=
  | Respond (r : response)
  | Next (req : request).

(** Lines 167-182. *)
Definition authenticateToken (req : request) : outcome :=
  let token := token_of (authorization req) in
  if negb (truthy token) then Respond Unauthenticated
  else
    match jwt_verify (str token) JWT_SECRET with
    | None => Respond Forbidden
    | Some u =>
        Next {| authorization := authorization req;
                body := body req;
                user := Some u |}
    end.

(** Lines 110-135, [POST /api/whatsapp/send]: the gate, then the handler. *)
Definition whatsapp_send (req : request) : response :=
  match authenticateToken req with
  | Respond r => r
  | Next req' => dispatch (body req')
  end.

End Handlers.

Arguments Respond {claims} r.
Arguments Next {claims} req.
Arguments authorization {claims} r.
Arguments body {claims} r.
Arguments user {claims} r.

(** ** Histories of store operations *)

Inductive op : Type :=
  | Issue (now : Z) (r : Q) (phoneNumber : string)
  | Verify (now : Z) (phoneNumber supplied : string)
  | Sweep (now : Z).

Definition step (m : verificationCodes) (o : op) : verificationCodes :=
  match o with
  | Issue now r p => (issue m now r p).2
  | Verify now p s => (verify m now p s).2
  | Sweep now => sweep now m
  end.

Definition run (ops : list op) (m : verificationCodes) : verificationCodes :=
  foldl step m ops.

(** The entries of the store keyed by [p], as [entries()] would list them. *)
Definition entries_for (p : string) (m : verificationCodes)
  : list (string * entry) :=
  filter (λ kv, kv.1 = p) (map_to_list m).

(** [o] is an [issue] for the phone number [p]. *)
Definition issues (p : string) (o : op) : Prop :=
  match o with
  | Issue _ _ q => q = p
  | _ => False
  end.

(** Two issues for [p], at [t1] and [t2] with draws [r1] and [r2], and any
    history [mid] between them; then, at time [now], the first code is
    refused and the second accepted. *)
Definition reissue_invalidates_first (m : verificationCodes) (t1 : Z) (r1 : Q)
    (mid : list op) (t2 : Z) (r2 : Q) (p : string) (now : Z) : Prop :=
  let '(c1, m1) := issue m t1 r1 p in
  let '(c2, m2) := issue (run mid m1) t2 r2 p in
  (verify m2 now p c1).1 ≠ CodeVerified
  ∧ (verify m2 now p c2).1 = CodeVerified.

(** No space character in [s]. *)
Fixpoint no_space (s : string) : bool :=
  match s with
  | EmptyString => true
  | String c s' => negb (Ascii.eqb c " ") && no_space s'
  end.

(** [t.startsWith(p)], as a proposition. *)
Definition startsWith (t p : string) : Prop := ∃ rest, t = p ++ rest.

(** A decimal digit, ['0'] to ['9']. *)
Definition is_digit (c : ascii) : bool :=
  (48 <=? N_of_ascii c)%N && (N_of_ascii c <=? 57)%N.

Fixpoint all_digits (s : string) : bool :=
  match s with
  | EmptyString => true
  | String c s' => is_digit c && all_digits s'
  end.

(** ** Histories of requests *)

(** What reaches the process: the two endpoints of the code store, each
    with the clock (and the draw) it reads, and the timer. *)
Inductive call : Type :=
  | SendCode (now : Z) (r : Q) (b : Body.t)
  | VerifyCode (now : Z) (b : Body.t)
  | Tick (now : Z).

(** The store after one call; the provider [create] is the one of the
    process. *)
Definition serve (tw : string) (create : Msg.params → string + Msg.t)
    (m : verificationCodes) (c : call) : verificationCodes :=
  match c with
  | SendCode now r b => (send_code tw create m now r b).2
  | VerifyCode now b => (verify_code m now b).2
  | Tick now => sweep now m
  end.

Definition serve_all (tw : string) (create : Msg.params → string + Msg.t)
    (cs : list call) (m : verificationCodes) : verificationCodes :=
  foldl (serve tw create) m cs.

(** The draw of a [SendCode] is one [Math.random()] can return: a double
    in [0, 1). *)
Definition draw_in_range (c : call) : Prop :=
  match c with
  | SendCode _ r _ => binary64 r ∧ (0 <= r)%Q ∧ (r < 1)%Q
  | _ => True
  end.

(** The phone numbers issued by a history of store operations. *)
Fixpoint issued (ops : list op) : gset string :=
  match ops with
  | [] => ∅
  | Issue _ _ p :: ops' => {[p]} ∪ issued ops'
  | _ :: ops' => issued ops'
  end.

(** A run of [verify] calls for [p], each with its time and its guess. *)
Definition try_codes (p : string) (m : verificationCodes)
    (guesses : list (Z * string)) : verificationCodes :=
  foldl (λ acc g, (verify acc g.1 p g.2).2) m guesses.

(** The request body of [verify-code] with both fields present. *)
Definition verify_body (p s : string) : Body.t :=
  {| Body.phoneNumber := Some p; Body.code := Some s;
     Body.to := None; Body.body := None |}.

(** The request body of [send-code]. *)
Definition phone_body (p : string) : Body.t :=
  {| Body.phoneNumber := Some p; Body.code := None;
     Body.to := None; Body.body := None |}.

(** The request body of the message routes. *)
Definition message_body (to body : string) : Body.t :=
  {| Body.phoneNumber := None; Body.code := None;
     Body.to := Some to; Body.body := Some body |}.

(** A provider that rejects every message. *)
Definition failing_create (params : Msg.params) : string + Msg.t :=
  inl "provider unavailable".

(** The clock value an operation reads. *)
Definition op_time (o : op) : Z :=
  match o with
  | Issue now _ _ => now
  | Verify now _ _ => now
  | Sweep now => now
  end.

(** Operations that cannot remove the entry of [p] holding the code [c]
    with expiry [deadline]: an issue for another number, a [verify] for
    another number or with another code, a sweep not past the expiry. *)
Definition keeps (p c : string) (deadline : Z) (o : op) : Prop :=
  match o with
  | Issue _ _ q => q ≠ p
  | Verify _ q s => q ≠ p ∨ s ≠ c
  | Sweep now => now ≤ deadline
  end.

(** An entry as the endpoints create them: a non-empty phone number and a
    code of six digits. *)
Definition well_formed_entry (p : string) (e : entry) : Prop :=
  p ≠ EmptyString
  ∧ String.length (code e) = 6%nat
  ∧ all_digits (code e) = true.

(** ** Sample data *)

Definition sample_phone : string := "+15551234567".
Definition sample_entry : entry := {| code := "482913"; expiresAt := 300000 |}.
Definition sample_store : verificationCodes :=
  <[sample_phone := sample_entry]> ∅.

(** The largest double below 1, [1 - 2^-53]. *)
Definition max_draw : Q := 9007199254740991 # 9007199254740992.

Definition sample_secret : string := "s3cret".

(** A verifier that accepts one token, for one secret. *)
Definition sample_jwt_verify (token secret : string) : option string :=
  if String.eqb token "good.token" && String.eqb secret sample_secret
  then Some "alice" else None.

Definition sample_create (params : Msg.params) : string + Msg.t :=
  inr {| Msg.sid := "SM1"; Msg.status := "queued" |}.

Definition sample_request (authHeader : option string) : request string :=
  {| authorization := authHeader;
     body := {| Body.phoneNumber := None; Body.code := None;
                Body.to := Some sample_phone; Body.body := Some "hello" |};
     user := None |}.

Example generate_code_lo : generate_code 0 = "100000".
Proof. vm_compute. reflexivity. Qed.
Example generate_code_hi : generate_code max_draw = "999999".
Proof. vm_compute. reflexivity. Qed.
Example generate_code_mid : generate_code (1 # 2) = "550000".
Proof. vm_compute. reflexivity. Qed.
(** Two draws where the rounding of the product shows: in exact
    arithmetic the codes would be 100029 and 549999. *)
Example generate_code_rounds_up :
  generate_code (150119987579 # 4503599627370496) = "100030".
Proof. vm_compute. reflexivity. Qed.
Example generate_code_rounds_to_even :
  generate_code ((1 # 2) - (1 # 18014398509481984)) = "550000".
Proof. vm_compute. reflexivity. Qed.
(** On these draws the machine's own multiplication and addition give
    what [round64] gives. *)
Example round64_machine_up :
  let r := (150119987579 / 4503599627370496)%float in
  (float_value (line55_machine r)
   == round64 (100000 + round64 (float_value r * 900000)))%Q.
Proof. vm_compute. reflexivity. Qed.
Example round64_machine_even :
  let r := (0.5 - 1 / 18014398509481984)%float in
  (float_value (line55_machine r)
   == round64 (100000 + round64 (float_value r * 900000)))%Q.
Proof. vm_compute. reflexivity. Qed.
Example round64_machine_max :
  let r := (9007199254740991 / 9007199254740992)%float in
  (float_value r == max_draw)%Q
  ∧ (float_value (line55_machine r)
     == round64 (100000 + round64 (float_value r * 900000)))%Q.
Proof. split; vm_compute; reflexivity. Qed.
Example split_bearer : split " " "Bearer abc.def" = ["Bearer"; "abc.def"].
Proof. reflexivity. Qed.
Example sweep_ex :
  sweep 10 (<["a" := {| code := "1"; expiresAt := 9 |}]>
            (<["b" := {| code := "2"; expiresAt := 10 |}]> ∅))
  = <["b" := {| code := "2"; expiresAt := 10 |}]> ∅.
Proof. vm_compute. reflexivity. Qed.

(** * Properties *)

(** ** Elementary facts about the embedding *)

Lemma expired_true now e : expired now e = true ↔ expiresAt e < now.
Proof. unfold expired. apply Z.ltb_lt. Qed.

Lemma expired_false now e : expired now e = false ↔ ¬ expiresAt e < now.
Proof. unfold expired. rewrite Z.ltb_ge. lia. Qed.

Lemma append_String a (s t : string) : String a s ++ t = String a (s ++ t).
Proof. reflexivity. Qed.

Lemma prefix_startsWith p t : String.prefix p t = true ↔ startsWith t p.
Proof.
  unfold startsWith.
  revert t. induction p as [|a p IH]; intros [|b t]; simpl.
  - split; [intros _; by exists EmptyString | done].
  - split; [intros _; by exists (String b t) | done].
  - split; [done | intros [rest Hrest]; discriminate].
  - setoid_rewrite append_String.
    destruct (ascii_dec a b) as [->|Hab].
    + rewrite IH. split; intros [rest Hrest]; exists rest; congruence.
    + split; [done | intros [rest Hrest]; congruence].
Qed.

(** The loop of [sweep], started from any map [m0] and run over the
    entries of [m]: an expired entry of [m] is gone, every other key reads
    as in [m0]. *)
Lemma sweep_loop_lookup now (m0 m : gmap string entry) p :
  map_fold (λ phone data acc, if expired now data then delete phone acc else acc)
           m0 m !! p
  = match m !! p with
    | Some e => if expired now e then None else m0 !! p
    | None => m0 !! p
    end.
Proof.
  revert p.
  apply (map_fold_weak_ind (λ acc (m : gmap string entry), ∀ p,
    acc !! p = match m !! p with
               | Some e => if expired now e then None else m0 !! p
               | None => m0 !! p
               end)).
  - intros p. by rewrite lookup_empty.
  - intros i x m' r Hi IH p. destruct (decide (i = p)) as [->|Hne].
    + rewrite lookup_insert_eq. specialize (IH p). rewrite Hi in IH.
      destruct (expired now x); [apply lookup_delete_eq | done].
    + rewrite lookup_insert_ne by done. rewrite <- IH.
      destruct (expired now x); [by apply lookup_delete_ne | done].
Qed.

Lemma sweep_lookup now (m : gmap string entry) p :
  sweep now m !! p
  = match m !! p with
    | Some e => if expired now e then None else Some e
    | None => None
    end.
Proof.
  unfold sweep. rewrite sweep_loop_lookup.
  destruct (m !! p) as [e|] eqn:E; [|done]. by destruct (expired now e).
Qed.

(** [sweep] is the filter that keeps the entries that have not expired. *)
Lemma sweep_filter now (m : gmap string entry) :
  sweep now m = filter (λ kv, ¬ expiresAt kv.2 < now) m.
Proof.
  apply map_eq. intros p. rewrite sweep_lookup.
  destruct (m !! p) as [e|] eqn:E.
  - destruct (expired now e) eqn:X.
    + symmetry. apply map_lookup_filter_None. right. intros e' He'.
      simpl. apply expired_true in X. naive_solver.
    + symmetry. apply map_lookup_filter_Some. split; [done|].
      by apply expired_false in X.
  - symmetry. apply map_lookup_filter_None. by left.
Qed.

Lemma verify_absent (m : gmap string entry) now p s :
  m !! p = None → verify m now p s = (InvalidOrExpired, m).
Proof. intros H. unfold verify. by rewrite H. Qed.

Lemma verify_expired (m : gmap string entry) now p s e :
  m !! p = Some e → expiresAt e < now → verify m now p s = (InvalidOrExpired, m).
Proof.
  intros H Hx. unfold verify. rewrite H.
  apply expired_true in Hx. by rewrite Hx.
Qed.

Lemma verify_mismatch (m : gmap string entry) now p s e :
  m !! p = Some e → ¬ expiresAt e < now → s ≠ code e →
  verify m now p s = (IncorrectCode, m).
Proof.
  intros H Hx Hs. unfold verify. rewrite H.
  apply expired_false in Hx. rewrite Hx.
  assert (String.eqb (code e) s = false) as -> by (apply String.eqb_neq; congruence).
  done.
Qed.

Lemma verify_match (m : gmap string entry) now p e :
  m !! p = Some e → ¬ expiresAt e < now →
  verify m now p (code e) = (CodeVerified, delete p m).
Proof.
  intros H Hx. unfold verify. rewrite H.
  apply expired_false in Hx. rewrite Hx.
  by rewrite String.eqb_refl.
Qed.

(** Whatever [verify] answers, the store it leaves is the old one or the
    old one without the entry of the phone number. *)
Lemma verify_store (m : gmap string entry) now p s :
  (verify m now p s).2 = m ∨ (verify m now p s).2 = delete p m.
Proof.
  unfold verify. destruct (m !! p) as [e|]; [|by left].
  destruct (expired now e); [by left|].
  destruct (negb (String.eqb (code e) s)); [by left | by right].
Qed.

Lemma issue_store (m : gmap string entry) now r p :
  (issue m now r p).2
  = <[p := {| code := generate_code r; expiresAt := now + 300000 |}]> m.
Proof. reflexivity. Qed.

(** The guard of [verify_code] lets exactly the requests with a non-empty
    phone number and a non-empty code reach [verify]. *)
Lemma verify_code_guarded (m : gmap string entry) now b :
  truthy (Body.phoneNumber b) = true → truthy (Body.code b) = true →
  verify_code m now b
  = verify m now (str (Body.phoneNumber b)) (str (Body.code b)).
Proof. intros Hp Hc. unfold verify_code. by rewrite Hp, Hc. Qed.

Lemma verify_code_missing (m : gmap string entry) now b :
  truthy (Body.phoneNumber b) = false ∨ truthy (Body.code b) = false →
  verify_code m now b = (FieldsRequired, m).
Proof.
  intros H. unfold verify_code.
  destruct (truthy (Body.phoneNumber b)), (truthy (Body.code b));
    simpl; destruct H; congruence.
Qed.

(** A sweep that ran before the call does not change what [verify]
    answers. *)
Lemma verify_after_sweep (m : gmap string entry) t now p s :
  t ≤ now → (verify (sweep t m) now p s).1 = (verify m now p s).1.
Proof.
  intros Ht. unfold verify. rewrite sweep_lookup.
  destruct (m !! p) as [e|] eqn:E; [|done].
  destruct (expired t e) eqn:X.
  - apply expired_true in X.
    assert (expired now e = true) as -> by (apply expired_true; lia). done.
  - destruct (expired now e); [done|].
    by destruct (negb (String.eqb (code e) s)).
Qed.

(** ** The claims *)

(** C5. One run of [sweep] at time [now] removes exactly the entries with
    [expiresAt < now]: a phone number reads [e] afterwards if and only if
    it read [e] before and [e] has not expired, and it reads nothing
    afterwards if and only if it had no entry or an expired one.  Every
    entry that stays keeps its phone number, code and expiry.  The store
    records nothing about earlier [verify] calls, so they cannot matter. *)
Theorem sweep_removes_exactly_expired (m : gmap string entry) (now : Z)
    (p : string) :
  (∀ e, sweep now m !! p = Some e ↔ m !! p = Some e ∧ ¬ expiresAt e < now)
  ∧ (sweep now m !! p = None
     ↔ m !! p = None ∨ ∃ e, m !! p = Some e ∧ expiresAt e < now).
Proof.
  rewrite sweep_lookup. destruct (m !! p) as [e'|] eqn:E.
  - destruct (expired now e') eqn:X.
    + apply expired_true in X. split.
      * intros e. split; [done | intros [[= ->] ?]; done].
      * split; [intros _; right; by exists e' | done].
    + apply expired_false in X. split.
      * intros e. split; [intros [= ->]; done | intros [? _]; done].
      * split; [done | intros [?|(e & [= ->] & ?)]; done].
  - split.
    + intros e. split; [done | intros [? _]; done].
    + split; [by left | done].
Qed.

(** C9. At the instant [now = expiresAt] the entry is still live: both
    tests are the strict [expiresAt < now], so [verify] with the stored
    code succeeds (and consumes the entry) and [sweep] keeps the entry. *)
Theorem exact_expiry_is_live (m : gmap string entry) (p : string) (e : entry) :
  m !! p = Some e →
  verify m (expiresAt e) p (code e) = (CodeVerified, delete p m)
  ∧ sweep (expiresAt e) m !! p = Some e
  ∧ expired (expiresAt e) e = false.
Proof.
  intros H. split; [|split].
  - apply verify_match; [done | lia].
  - rewrite sweep_lookup, H.
    assert (expired (expiresAt e) e = false) as -> by (apply expired_false; lia).
    done.
  - apply expired_false. lia.
Qed.

Lemma exact_expiry_is_live_witness :
  verify sample_store 300000 sample_phone "482913"
    = (CodeVerified, delete sample_phone sample_store)
  ∧ sweep 300000 sample_store !! sample_phone = Some sample_entry
  ∧ expired 300000 sample_entry = false.
Proof.
  apply (exact_expiry_is_live sample_store sample_phone sample_entry).
  vm_compute. reflexivity.
Defined.

(** C2. With a live entry for [p] and a supplied code different from the
    stored one, [verify] answers [IncorrectCode] and returns the store
    unchanged; verifying the stored code afterwards, at any time up to the
    expiry, succeeds. *)
Theorem verify_incorrect_keeps_entry (m : gmap string entry) (now : Z)
    (p s : string) (e : entry) :
  m !! p = Some e → ¬ expiresAt e < now → s ≠ code e →
  verify m now p s = (IncorrectCode, m)
  ∧ ∀ later, ¬ expiresAt e < later →
      verify (verify m now p s).2 later p (code e)
      = (CodeVerified, delete p m).
Proof.
  intros H Hx Hs.
  pose proof (verify_mismatch m now p s e H Hx Hs) as Hv.
  split; [done|]. intros later Hl. rewrite Hv. simpl.
  by apply verify_match.
Qed.

Lemma verify_incorrect_keeps_entry_witness :
  verify sample_store 1000 sample_phone "000000" = (IncorrectCode, sample_store)
  ∧ ∀ later, ¬ expiresAt sample_entry < later →
      verify (verify sample_store 1000 sample_phone "000000").2 later
             sample_phone (code sample_entry)
      = (CodeVerified, delete sample_phone sample_store).
Proof.
  apply (verify_incorrect_keeps_entry sample_store 1000 sample_phone
           "000000" sample_entry).
  - vm_compute. reflexivity.
  - simpl. lia.
  - discriminate.
Defined.

(** C3. When the store has no entry for [p], or the entry's [expiresAt]
    is before the time of the call, [verify] answers [InvalidOrExpired]
    for every supplied code and leaves the store as it is; the answer is
    the same when a sweep has run first, whenever it ran. *)
Theorem verify_invalid_or_expired (m : gmap string entry) (now : Z)
    (p s : string) :
  (m !! p = None ∨ ∃ e, m !! p = Some e ∧ expiresAt e < now) →
  verify m now p s = (InvalidOrExpired, m)
  ∧ ∀ t, verify (sweep t m) now p s = (InvalidOrExpired, sweep t m).
Proof.
  intros H. split.
  - destruct H as [H|(e & H & Hx)];
      [by apply verify_absent | by eapply verify_expired].
  - intros t. unfold verify. rewrite sweep_lookup.
    destruct H as [H|(e & H & Hx)]; rewrite H; [done|].
    destruct (expired t e); [done|].
    apply expired_true in Hx. by rewrite Hx.
Qed.

Lemma verify_invalid_or_expired_witness :
  verify sample_store 300001 sample_phone "482913"
    = (InvalidOrExpired, sample_store)
  ∧ ∀ t, verify (sweep t sample_store) 300001 sample_phone "482913"
         = (InvalidOrExpired, sweep t sample_store).
Proof.
  apply (verify_invalid_or_expired sample_store 300001 sample_phone "482913").
  right. exists sample_entry. split; [vm_compute; reflexivity | simpl; lia].
Defined.

(** *** Decimal strings *)

Lemma pretty_N_char_digit x : is_digit (pretty_N_char x) = true.
Proof. unfold pretty_N_char. by repeat case_match. Qed.

Lemma pretty_N_go_cons (y : N) (s : string) :
  (0 < y)%N →
  pretty_N_go y s
  = pretty_N_go (N.div y 10) (String (pretty_N_char (N.modulo y 10)) s).
Proof. apply pretty_N_go_step. Qed.

(** A number with [k + 1] decimal digits puts [k + 1] digit characters in
    front of the accumulator. *)
Lemma pretty_N_go_length (k : nat) : ∀ (y : N) (s : string),
  (10 ^ N.of_nat k ≤ y < 10 ^ N.of_nat (S k))%N →
  String.length (pretty_N_go y s) = (S k + String.length s)%nat
  ∧ (all_digits s = true → all_digits (pretty_N_go y s) = true).
Proof.
  induction k as [|k IH]; intros y s Hy.
  - change (10 ^ N.of_nat 0)%N with 1%N in Hy.
    change (10 ^ N.of_nat 1)%N with 10%N in Hy.
    rewrite pretty_N_go_cons by lia.
    assert (N.div y 10 = 0)%N as -> by lia.
    rewrite pretty_N_go_0. simpl. rewrite pretty_N_char_digit. done.
  - rewrite pretty_N_go_cons by lia.
    rewrite !Nat2N.inj_succ, !N.pow_succ_r' in Hy.
    rewrite Nat2N.inj_succ, N.pow_succ_r' in IH.
    destruct (IH (N.div y 10) (String (pretty_N_char (N.modulo y 10)) s))
      as [IH1 IH2]; [lia|].
    split.
    + rewrite IH1. simpl. lia.
    + intros Hs. apply IH2. simpl. by rewrite pretty_N_char_digit.
Qed.

Lemma toString_six_digits (n : Z) :
  100000 ≤ n ≤ 999999 →
  String.length (toString n) = 6%nat ∧ all_digits (toString n) = true.
Proof.
  intros Hn. destruct n as [|x|x]; [lia| |lia].
  destruct (pretty_N_go_length 5 (N.pos x) EmptyString) as [H1 H2].
  { change (10 ^ N.of_nat 5)%N with 100000%N.
    change (10 ^ N.of_nat 6)%N with 1000000%N. lia. }
  split; [exact H1 | by apply H2].
Qed.

(** *** Double arithmetic *)

Lemma pow2_pos e : (0 < pow2 e)%Q.
Proof. apply Qpower_0_lt. reflexivity. Qed.

Lemma pow2_add a b : (pow2 (a + b) == pow2 a * pow2 b)%Q.
Proof. apply Qpower_plus. discriminate. Qed.

Lemma pow2_le a b : a ≤ b → (pow2 a <= pow2 b)%Q.
Proof. intros H. apply Qpower_le_compat_l; [done | discriminate]. Qed.

Lemma pow2_lt a b : a < b → (pow2 a < pow2 b)%Q.
Proof. intros H. apply Qpower_lt_compat_l; [done | reflexivity]. Qed.

Lemma pow2_lt_inv a b : (pow2 a < pow2 b)%Q → a < b.
Proof. intros H. eapply Qpower_lt_compat_l_inv; [exact H | reflexivity]. Qed.

Lemma pow2_Z e : 0 ≤ e → (pow2 e == inject_Z (2 ^ e))%Q.
Proof. intros H. symmetry. apply (Zpower_Qpower 2 e H). Qed.

Lemma pow2_opp_mul e : (pow2 e * pow2 (- e) == 1)%Q.
Proof. rewrite <- pow2_add, Z.add_opp_diag_r. reflexivity. Qed.

Lemma div_pow2 x e : (x / pow2 e == x * pow2 (- e))%Q.
Proof.
  unfold Qdiv. apply Qmult_comp; [reflexivity|].
  unfold pow2. rewrite Qpower_opp. reflexivity.
Qed.

(** [ilog2 x] is the exponent of the binade of [x]. *)
Lemma positive_log2 (d : positive) :
  (pow2 (Z.log2 (Zpos d)) <= inject_Z (Zpos d))%Q
  ∧ (inject_Z (Zpos d) < pow2 (Z.log2 (Zpos d) + 1))%Q.
Proof.
  pose proof (Z.log2_spec (Zpos d) ltac:(done)) as [H1 H2].
  pose proof (Z.log2_nonneg (Zpos d)).
  rewrite !pow2_Z by lia. rewrite <- Zle_Qle, <- Zlt_Qlt.
  split; [done|]. by rewrite Z.add_1_r.
Qed.

Lemma ilog2_bracket (x : Q) :
  (0 < x)%Q →
  let e0 := Z.log2 (Qnum x) - Z.log2 (Zpos (Qden x)) in
  (pow2 (e0 - 1) <= x)%Q ∧ (x < pow2 (e0 + 1))%Q.
Proof.
  intros Hx e0. destruct x as [n d]. cbn [Qnum Qden] in e0.
  assert (0 < n) as Hn by (unfold Qlt in Hx; simpl in Hx; lia).
  destruct n as [|n|n]; try lia.
  destruct (positive_log2 n) as [N1 N2].
  destruct (positive_log2 d) as [D1 D2].
  set (ln := Z.log2 (Z.pos n)) in *. set (ld := Z.log2 (Z.pos d)) in *.
  assert (Z.pos n # d == inject_Z (Z.pos n) * / inject_Z (Z.pos d))%Q as Hq
    by apply Qmake_Qdiv.
  assert (0 < inject_Z (Z.pos d))%Q as Hd by reflexivity.
  split.
  - rewrite Hq. apply Qle_shift_div_l; [done|].
    (* pow2 (e0-1) * d <= pow2 (e0 - 1) * pow2 (ld+1) = pow2 ln <= n *)
    eapply Qle_trans; [|exact N1].
    eapply Qle_trans.
    + apply Qmult_le_l; [apply pow2_pos|]. apply Qlt_le_weak, D2.
    + rewrite <- pow2_add. apply pow2_le. subst e0 ln ld. lia.
  - rewrite Hq. apply Qlt_shift_div_r; [done|].
    eapply Qlt_le_trans; [exact N2|].
    eapply Qle_trans; [|apply Qmult_le_l; [apply pow2_pos | exact D1]].
    rewrite <- pow2_add. apply pow2_le. subst e0 ln ld. lia.
Qed.

Lemma ilog2_spec (x : Q) :
  (0 < x)%Q → (pow2 (ilog2 x) <= x)%Q ∧ (x < pow2 (ilog2 x + 1))%Q.
Proof.
  intros Hx. destruct (ilog2_bracket x Hx) as [H1 H2]. unfold ilog2.
  set (e0 := Z.log2 (Qnum x) - Z.log2 (Zpos (Qden x))) in *.
  destruct (Qle_bool (pow2 e0) x) eqn:E.
  - apply Qle_bool_iff in E. done.
  - split; [done|]. replace (e0 - 1 + 1) with e0 by lia.
    apply Qnot_le_lt. intros H. apply Qle_bool_iff in H. congruence.
Qed.

Lemma ilog2_unique (x : Q) (e : Z) :
  (pow2 e <= x)%Q → (x < pow2 (e + 1))%Q → ilog2 x = e.
Proof.
  intros H1 H2.
  assert (0 < x)%Q as Hx by (eapply Qlt_le_trans; [apply pow2_pos | exact H1]).
  destruct (ilog2_spec x Hx) as [S1 S2].
  assert (e < ilog2 x + 1).
  { apply pow2_lt_inv. eapply Qle_lt_trans; [exact H1 | exact S2]. }
  assert (ilog2 x < e + 1).
  { apply pow2_lt_inv. eapply Qle_lt_trans; [exact S1 | exact H2]. }
  lia.
Qed.

Lemma ilog2_le (x y : Q) : (0 < x)%Q → (x <= y)%Q → ilog2 x ≤ ilog2 y.
Proof.
  intros Hx Hxy.
  assert (0 < y)%Q as Hy by (eapply Qlt_le_trans; [exact Hx | exact Hxy]).
  destruct (ilog2_spec x Hx) as [S1 _]. destruct (ilog2_spec y Hy) as [_ S2].
  assert (ilog2 x < ilog2 y + 1); [|lia].
  apply pow2_lt_inv. eapply Qle_lt_trans; [exact S1|].
  eapply Qle_lt_trans; [exact Hxy | exact S2].
Qed.

(** Rounding to the nearest integer. *)
Ltac qcompare_props :=
  repeat match goal with
  | H : (_ ?= _)%Q = Eq |- _ => apply Qeq_alt in H
  | H : (_ ?= _)%Q = Lt |- _ => apply Qlt_alt in H
  | H : (_ ?= _)%Q = Gt |- _ => apply Qgt_alt in H
  end.

Lemma rne_cases (q : Q) :
  let f := Qfloor q in
  (rne q = f ∧ (q - inject_Z f <= 1 # 2)%Q)
  ∨ (rne q = f + 1 ∧ (1 # 2 <= q - inject_Z f)%Q).
Proof.
  intros f. unfold rne. fold f.
  destruct (q - inject_Z f ?= 1 # 2)%Q eqn:E.
  - apply Qeq_alt in E. destruct (Z.even f); [left | right];
      (split; [done | rewrite E; apply Qle_refl]).
  - apply Qlt_alt in E. left. split; [done | by apply Qlt_le_weak].
  - apply Qgt_alt in E. right. split; [done | by apply Qlt_le_weak].
Qed.

Lemma rne_comp (q q' : Q) : (q == q')%Q → rne q = rne q'.
Proof.
  intros H. unfold rne. rewrite (Qfloor_comp _ _ H).
  assert ((q - inject_Z (Qfloor q') ?= 1 # 2)%Q
          = (q' - inject_Z (Qfloor q') ?= 1 # 2)%Q) as ->; [|done].
  apply Qcompare_comp; [|reflexivity]. rewrite H. reflexivity.
Qed.

Lemma rne_Z (k : Z) : rne (inject_Z k) = k.
Proof.
  unfold rne. rewrite Qfloor_Z.
  assert ((inject_Z k - inject_Z k ?= 1 # 2)%Q = Lt) as ->; [|done].
  apply Qlt_alt. unfold Qminus. rewrite Qplus_opp_r. reflexivity.
Qed.

Lemma rne_le (q q' : Q) : (q <= q')%Q → rne q ≤ rne q'.
Proof.
  intros H. pose proof (Qfloor_resp_le _ _ H) as Hf.
  pose proof (Qfloor_le q) as L1. pose proof (Qlt_floor q) as L2.
  pose proof (Qfloor_le q') as L1'. pose proof (Qlt_floor q') as L2'.
  destruct (decide (Qfloor q = Qfloor q')) as [Heq|Hne].
  - unfold rne. rewrite <- Heq.
    destruct (q - inject_Z (Qfloor q) ?= 1 # 2)%Q eqn:E;
      destruct (q' - inject_Z (Qfloor q) ?= 1 # 2)%Q eqn:E';
      try (destruct (Z.even (Qfloor q))); try lia;
      qcompare_props; exfalso; Lqa.lra.
  - destruct (rne_cases q) as [[-> _]|[-> _]];
      destruct (rne_cases q') as [[-> _]|[-> _]]; lia.
Qed.

Lemma rne_error (q : Q) :
  (- (1 # 2) <= inject_Z (rne q) - q)%Q ∧ (inject_Z (rne q) - q <= 1 # 2)%Q.
Proof.
  pose proof (Qfloor_le q) as L1. pose proof (Qlt_floor q) as L2.
  rewrite inject_Z_plus in L2. change (inject_Z 1) with 1%Q in L2.
  destruct (rne_cases q) as [[-> H]|[-> H]].
  - split; Lqa.lra.
  - rewrite inject_Z_plus. change (inject_Z 1) with 1%Q. split; Lqa.lra.
Qed.

(** Rounding to a double. *)
Lemma round64_0 : round64 0 = 0%Q.
Proof. reflexivity. Qed.

Lemma round64_pos (x : Q) :
  (0 < x)%Q →
  round64 x
  = (inject_Z (rne (x / pow2 (fexp (ilog2 x)))) * pow2 (fexp (ilog2 x)))%Q.
Proof.
  intros Hx. unfold round64.
  assert (Qeq_bool x 0 = false) as ->.
  { destruct (Qeq_bool x 0) eqn:E; [|done].
    apply Qeq_bool_iff in E. rewrite E in Hx. discriminate. }
  destruct x as [[|n|n] d]; try discriminate. reflexivity.
Qed.

Lemma scaled_le (x y : Q) c : (x <= y)%Q → (x / pow2 c <= y / pow2 c)%Q.
Proof.
  intros H. rewrite !div_pow2. apply Qmult_le_compat_r; [done|].
  apply Qlt_le_weak, pow2_pos.
Qed.

Lemma scaled_pow2 e c : (pow2 e / pow2 c == pow2 (e - c))%Q.
Proof. rewrite div_pow2, <- pow2_add. reflexivity. Qed.

Lemma round64_nonneg (x : Q) : (0 <= x)%Q → (0 <= round64 x)%Q.
Proof.
  intros H. destruct (Qlt_le_dec 0 x) as [Hx|Hx].
  - rewrite round64_pos by done.
    apply Qmult_le_0_compat; [|apply Qlt_le_weak, pow2_pos].
    change 0%Q with (inject_Z 0). rewrite <- Zle_Qle.
    rewrite <- (rne_Z 0). apply rne_le.
    rewrite div_pow2. apply Qmult_le_0_compat; [done|].
    apply Qlt_le_weak, pow2_pos.
  - assert (x == 0)%Q as E by (by apply Qle_antisym).
    unfold round64. apply Qeq_bool_iff in E. rewrite E. done.
Qed.

Lemma round64_le_pos (x y : Q) :
  (0 < x)%Q → (x <= y)%Q → (round64 x <= round64 y)%Q.
Proof.
  intros Hx Hxy.
  assert (0 < y)%Q as Hy by (eapply Qlt_le_trans; [exact Hx | exact Hxy]).
  rewrite !round64_pos by done.
  pose proof (ilog2_le x y Hx Hxy) as He.
  destruct (ilog2_spec x Hx) as [_ X2]. destruct (ilog2_spec y Hy) as [Y1 _].
  set (ex := ilog2 x) in *. set (ey := ilog2 y) in *.
  destruct (decide (fexp ex = fexp ey)) as [Hc|Hc].
  - rewrite Hc. apply Qmult_le_compat_r; [|apply Qlt_le_weak, pow2_pos].
    rewrite <- Zle_Qle. apply rne_le. by apply scaled_le.
  - assert (fexp ex < fexp ey ∧ fexp ey = ey - 52 ∧ ex < ey) as (Hlt & Hcy & Hex)
      by (unfold fexp in *; lia).
    set (cx := fexp ex) in *. set (cy := fexp ey) in *.
    set (k := Z.max (ex + 1 - cx) 0).
    apply Qle_trans with (pow2 ey).
    + apply Qle_trans with (inject_Z (2 ^ k) * pow2 cx)%Q.
      * apply Qmult_le_compat_r; [|apply Qlt_le_weak, pow2_pos].
        rewrite <- Zle_Qle. rewrite <- (rne_Z (2 ^ k)). apply rne_le.
        rewrite <- pow2_Z by lia.
        apply Qle_trans with (pow2 (ex + 1) / pow2 cx)%Q;
          [by apply scaled_le, Qlt_le_weak|].
        rewrite scaled_pow2. apply pow2_le. lia.
      * rewrite <- pow2_Z by lia. rewrite <- pow2_add. apply pow2_le. lia.
    + apply Qle_trans with (inject_Z (2 ^ 52) * pow2 cy)%Q.
      * rewrite <- pow2_Z by lia. rewrite <- pow2_add. apply pow2_le. lia.
      * apply Qmult_le_compat_r; [|apply Qlt_le_weak, pow2_pos].
        rewrite <- Zle_Qle. rewrite <- (rne_Z (2 ^ 52)). apply rne_le.
        rewrite <- pow2_Z by lia.
        apply Qle_trans with (pow2 ey / pow2 cy)%Q;
          [|by apply scaled_le].
        rewrite scaled_pow2. apply pow2_le. lia.
Qed.

Lemma round64_le (x y : Q) :
  (0 <= x)%Q → (x <= y)%Q → (round64 x <= round64 y)%Q.
Proof.
  intros H0 Hxy. destruct (Qlt_le_dec 0 x) as [Hx|Hx].
  - by apply round64_le_pos.
  - assert (x == 0)%Q as E by (by apply Qle_antisym).
    assert (round64 x = 0%Q) as ->.
    { unfold round64. apply Qeq_bool_iff in E. by rewrite E. }
    apply round64_nonneg. by rewrite <- E.
Qed.

Lemma max_draw_pow2 : (max_draw == inject_Z (2 ^ 53 - 1) * pow2 (-53))%Q.
Proof. vm_compute. reflexivity. Qed.

Lemma binary64_below_one (r : Q) :
  binary64 r → (r < 1)%Q → (r <= max_draw)%Q.
Proof.
  intros (m & e & Hm & He & Hr) H1. rewrite Hr in *. clear Hr r.
  rewrite max_draw_pow2.
  destruct (Z_le_gt_dec (-53) e) as [Hge|Hlt].
  - assert (pow2 e == inject_Z (2 ^ (e + 53)) * pow2 (-53))%Q as Hp.
    { rewrite <- pow2_Z by lia. rewrite <- pow2_add.
      replace (e + 53 + -53) with e by lia. reflexivity. }
    rewrite Hp, Qmult_assoc, <- inject_Z_mult in *.
    apply Qmult_le_compat_r; [|apply Qlt_le_weak, pow2_pos].
    rewrite <- Zle_Qle.
    assert (m * 2 ^ (e + 53) < 2 ^ 53); [|lia].
    rewrite Zlt_Qlt.
    apply (Qmult_lt_r _ _ (pow2 (-53))); [apply pow2_pos|].
    eapply Qlt_le_trans; [exact H1|].
    vm_compute. discriminate.
  - apply Qle_trans with (inject_Z (2 ^ 53 - 1) * pow2 e)%Q.
    + apply Qmult_le_compat_r; [|apply Qlt_le_weak, pow2_pos].
      rewrite <- Zle_Qle. lia.
    + apply Qmult_le_l; [reflexivity|]. apply pow2_le. lia.
Qed.

Lemma code_floor_range (r : Q) :
  binary64 r → (0 <= r)%Q → (r < 1)%Q →
  100000 ≤ Qfloor (round64 (100000 + round64 (r * 900000))) ≤ 999999.
Proof.
  intros Hb H0 H1. pose proof (binary64_below_one r Hb H1) as Hmax.
  set (y := round64 (r * 900000)).
  assert (0 <= y)%Q as Hy0.
  { apply round64_nonneg. apply Qmult_le_0_compat; [done | discriminate]. }
  assert (y <= 900000 - (1 # 8589934592))%Q as Hy1.
  { apply Qle_trans with (round64 (max_draw * 900000)).
    - apply round64_le.
      + apply Qmult_le_0_compat; [done | discriminate].
      + apply Qmult_le_compat_r; [done | discriminate].
    - vm_compute. discriminate. }
  split.
  - rewrite <- (Qfloor_Z 100000) at 1. apply Qfloor_resp_le.
    apply Qle_trans with (round64 100000).
    + vm_compute. discriminate.
    + apply round64_le; [discriminate|]. Lqa.lra.
  - assert (Qfloor (round64 (100000 + y)) < 1000000); [|lia].
    rewrite Zlt_Qlt. eapply Qle_lt_trans; [apply Qfloor_le|].
    apply Qle_lt_trans
      with (round64 (100000 + (900000 - (1 # 8589934592)))).
    + apply round64_le; Lqa.lra.
    + vm_compute. reflexivity.
Qed.

Lemma ilog2_lt (x : Q) (k : Z) : (0 < x)%Q → (x < pow2 k)%Q → ilog2 x < k.
Proof.
  intros Hx Hk. destruct (ilog2_spec x Hx) as [S1 _].
  apply pow2_lt_inv. eapply Qle_lt_trans; [exact S1 | exact Hk].
Qed.

Lemma fexp_le (a b : Z) : a ≤ b → fexp a ≤ fexp b.
Proof. unfold fexp. lia. Qed.

Lemma pow2_half (c : Z) : (pow2 (c - 1) == (1 # 2) * pow2 c)%Q.
Proof.
  replace (c - 1) with (-1 + c) by lia. rewrite pow2_add. reflexivity.
Qed.

Lemma scaled_back (x : Q) (c : Z) : (x / pow2 c * pow2 c == x)%Q.
Proof.
  rewrite div_pow2, <- Qmult_assoc, (Qmult_comm (pow2 (- c))), pow2_opp_mul.
  apply Qmult_1_r.
Qed.

(** The rounding error is at most half a unit in the last place. *)
Lemma round64_error (x : Q) :
  (0 < x)%Q →
  (- pow2 (fexp (ilog2 x) - 1) <= round64 x - x)%Q
  ∧ (round64 x - x <= pow2 (fexp (ilog2 x) - 1))%Q.
Proof.
  intros Hx. rewrite round64_pos by done.
  set (c := fexp (ilog2 x)). set (q := (x / pow2 c)%Q).
  destruct (rne_error q) as [E1 E2].
  assert (x == q * pow2 c)%Q as Hq by (symmetry; apply scaled_back).
  pose proof (pow2_pos c) as Hc. rewrite pow2_half.
  assert (inject_Z (rne q) * pow2 c - x
          == (inject_Z (rne q) - q) * pow2 c)%Q as ->.
  { rewrite Hq at 1. ring. }
  split.
  - assert (- ((1 # 2) * pow2 c) == (- (1 # 2)) * pow2 c)%Q as -> by ring.
    apply Qmult_le_compat_r; [done | by apply Qlt_le_weak].
  - apply Qmult_le_compat_r; [done | by apply Qlt_le_weak].
Qed.

Lemma round64_error_below (x : Q) (k : Z) :
  (0 < x)%Q → (x < pow2 k)%Q →
  (- pow2 (fexp (k - 1) - 1) <= round64 x - x)%Q
  ∧ (round64 x - x <= pow2 (fexp (k - 1) - 1))%Q.
Proof.
  intros Hx Hk. destruct (round64_error x Hx) as [E1 E2].
  pose proof (ilog2_lt x k Hx Hk) as Hl.
  assert (pow2 (fexp (ilog2 x) - 1) <= pow2 (fexp (k - 1) - 1))%Q as Hp.
  { apply pow2_le. pose proof (fexp_le (ilog2 x) (k - 1)). lia. }
  split.
  - eapply Qle_trans; [|exact E1]. by apply Qopp_le_compat.
  - eapply Qle_trans; [exact E2 | exact Hp].
Qed.

(** The result of a rounding is a double, short of overflow. *)
Lemma round64_binary64 (x : Q) :
  (0 <= x)%Q → (x < pow2 1023)%Q → binary64 (round64 x).
Proof.
  intros H0 Hk. destruct (Qlt_le_dec 0 x) as [Hx|Hx].
  2:{ assert (x == 0)%Q as E by (by apply Qle_antisym).
      assert (round64 x = 0%Q) as ->.
      { unfold round64. apply Qeq_bool_iff in E. by rewrite E. }
      exists 0, 0. split; [done|]. split; [lia|]. reflexivity. }
  rewrite round64_pos by done.
  pose proof (ilog2_lt x 1023 Hx Hk) as Hl.
  destruct (ilog2_spec x Hx) as [_ S2].
  set (ex := ilog2 x) in *. set (c := fexp ex).
  set (q := (x / pow2 c)%Q).
  assert (0 ≤ rne q) as Hr0.
  { rewrite <- (rne_Z 0). apply rne_le. unfold q. rewrite div_pow2.
    apply Qmult_le_0_compat; [by apply Qlt_le_weak|].
    apply Qlt_le_weak, pow2_pos. }
  assert (rne q ≤ 2 ^ 53) as Hr1.
  { rewrite <- (rne_Z (2 ^ 53)). apply rne_le.
    rewrite <- pow2_Z by lia.
    apply Qle_trans with (pow2 (ex + 1) / pow2 c)%Q;
      [by apply scaled_le, Qlt_le_weak|].
    rewrite scaled_pow2. apply pow2_le. unfold c, fexp. lia. }
  destruct (decide (rne q = 2 ^ 53)) as [Heq|Hne].
  - exists (2 ^ 52), (c + 1). split; [done|].
    split; [unfold c, fexp; lia|].
    rewrite Heq, pow2_add.
    assert (inject_Z (2 ^ 53) == inject_Z (2 ^ 52) * pow2 1)%Q as ->
      by reflexivity.
    ring.
  - exists (rne q), c. split; [lia|].
    split; [unfold c, fexp; lia | reflexivity].
Qed.

Lemma Qfloor_between (v : Q) (n : Z) :
  (inject_Z n <= v)%Q → (v < inject_Z n + 1)%Q → Qfloor v = n.
Proof.
  intros H1 H2.
  assert (n ≤ Qfloor v).
  { rewrite <- (Qfloor_Z n). by apply Qfloor_resp_le. }
  assert (Qfloor v < n + 1); [|lia].
  rewrite Zlt_Qlt, inject_Z_plus. eapply Qle_lt_trans; [apply Qfloor_le|].
  done.
Qed.

(** No integer, and so no multiple of the unit in the last place, is
    closer than the one chosen. *)
Lemma rne_nearest (q : Q) (k : Z) :
  (Qabs (inject_Z (rne q) - q) <= Qabs (inject_Z k - q))%Q.
Proof.
  pose proof (Qfloor_le q) as L1. pose proof (Qlt_floor q) as L2.
  rewrite inject_Z_plus in L2. change (inject_Z 1) with 1%Q in L2.
  pose proof (Qle_Qabs (inject_Z k - q)) as A1.
  pose proof (Qle_Qabs (- (inject_Z k - q))) as A2.
  rewrite Qabs_opp in A2.
  set (d := Qabs (inject_Z k - q)) in *.
  apply Qabs_Qle_condition.
  assert (inject_Z k <= inject_Z (Qfloor q)
          ∨ inject_Z (Qfloor q) + 1 <= inject_Z k)%Q as Hk.
  { destruct (Z_le_gt_dec k (Qfloor q)) as [H|H].
    - left. by rewrite <- Zle_Qle.
    - right. change 1%Q with (inject_Z 1).
      rewrite <- inject_Z_plus, <- Zle_Qle. lia. }
  destruct (rne_cases q) as [[-> H]|[-> H]].
  - destruct Hk; split; Lqa.lra.
  - rewrite inject_Z_plus. change (inject_Z 1) with 1%Q.
    destruct Hk; split; Lqa.lra.
Qed.

(** Half-way between two integers the even one is chosen. *)
Lemma rne_tie_even (q : Q) :
  (q - inject_Z (Qfloor q) == 1 # 2)%Q → Z.even (rne q) = true.
Proof.
  intros H. unfold rne. apply Qeq_alt in H. rewrite H.
  destruct (Z.even (Qfloor q)) eqn:E; [done|].
  by rewrite Z.even_add, E.
Qed.

Lemma grid_nearest (x : Q) (c k : Z) :
  (Qabs (inject_Z (rne (x / pow2 c)) * pow2 c - x)
   <= Qabs (inject_Z k * pow2 c - x))%Q.
Proof.
  set (q := (x / pow2 c)%Q).
  assert (x == q * pow2 c)%Q as Hq by (symmetry; apply scaled_back).
  pose proof (pow2_pos c) as Hc.
  assert (∀ j : Z, Qabs (inject_Z j * pow2 c - x)
                   == Qabs (inject_Z j - q) * pow2 c)%Q as Hj.
  { intros j.
    assert (inject_Z j * pow2 c - x == (inject_Z j - q) * pow2 c)%Q as ->.
    { rewrite Hq at 1. ring. }
    rewrite Qabs_Qmult, (Qabs_pos (pow2 c)) by (by apply Qlt_le_weak).
    reflexivity. }
  rewrite !Hj. apply Qmult_le_compat_r; [|by apply Qlt_le_weak].
  apply rne_nearest.
Qed.

(** [round64 x] is a double nearest to [x]: no double is closer. *)
Lemma round64_nearest (x y : Q) :
  (0 < x)%Q → binary64 y → (Qabs (round64 x - x) <= Qabs (y - x))%Q.
Proof.
  intros Hx (m & e & Hm & He & Hy). rewrite round64_pos by done.
  destruct (ilog2_spec x Hx) as [S1 _].
  set (ex := ilog2 x) in *. set (c := fexp ex).
  destruct (Z_le_gt_dec c e) as [Hce|Hce].
  - assert (y == inject_Z (m * 2 ^ (e - c)) * pow2 c)%Q as ->.
    { rewrite Hy, inject_Z_mult, <- pow2_Z, <- Qmult_assoc, <- pow2_add by lia.
      replace (e - c + c) with e by lia. reflexivity. }
    apply grid_nearest.
  - assert (c = ex - 52) as Hc by (unfold c, fexp in *; lia).
    eapply Qle_trans; [apply (grid_nearest x c (2 ^ 52))|].
    assert (inject_Z (2 ^ 52) * pow2 c == pow2 ex)%Q as ->.
    { rewrite <- pow2_Z, <- pow2_add by lia.
      replace (52 + c) with ex by lia. reflexivity. }
    assert (y <= pow2 ex)%Q as Hyx.
    { rewrite Hy.
      apply Qle_trans with (inject_Z (2 ^ 53) * pow2 e)%Q.
      - apply Qmult_le_compat_r; [|apply Qlt_le_weak, pow2_pos].
        rewrite <- Zle_Qle. lia.
      - rewrite <- pow2_Z, <- pow2_add by lia. apply pow2_le. lia. }
    pose proof (Qle_Qabs (- (y - x))) as A. rewrite Qabs_opp in A.
    apply Qabs_Qle_condition. split; Lqa.lra.
Qed.

(** C6. For every draw [r] the random source can return, a double with
    [0 <= r < 1], [issue] returns the decimal string of an integer from
    100000 to 999999, six characters, all of them digits, and stores it
    under the phone number with [expiresAt] equal to the time of issue
    plus 300000 ms.  The product and the sum of line 55 are rounded as
    doubles are. *)
Theorem issue_code_range_and_expiry (m : gmap string entry) (now : Z) (r : Q)
    (p : string) :
  binary64 r → (0 <= r)%Q → (r < 1)%Q →
  ∃ n : Z,
    100000 ≤ n ≤ 999999
    ∧ (issue m now r p).1 = toString n
    ∧ String.length (issue m now r p).1 = 6%nat
    ∧ all_digits (issue m now r p).1 = true
    ∧ (issue m now r p).2 !! p
      = Some {| code := toString n; expiresAt := now + 300000 |}.
Proof.
  intros Hb H0 H1.
  exists (Qfloor (round64 (100000 + round64 (r * 900000)))).
  pose proof (code_floor_range r Hb H0 H1) as Hn.
  destruct (toString_six_digits _ Hn) as [Hl Hd].
  split; [done|]. split; [done|]. split; [exact Hl|]. split; [exact Hd|].
  rewrite issue_store. apply lookup_insert_eq.
Qed.

Lemma issue_code_range_and_expiry_witness :
  ∃ n : Z,
    100000 ≤ n ≤ 999999
    ∧ (issue ∅ 1000 max_draw sample_phone).1 = toString n
    ∧ String.length (issue ∅ 1000 max_draw sample_phone).1 = 6%nat
    ∧ all_digits (issue ∅ 1000 max_draw sample_phone).1 = true
    ∧ (issue ∅ 1000 max_draw sample_phone).2 !! sample_phone
      = Some {| code := toString n; expiresAt := 1000 + 300000 |}.
Proof.
  apply (issue_code_range_and_expiry ∅ 1000 max_draw sample_phone).
  - exists (2 ^ 53 - 1), (-53).
    split; [reflexivity|]. split; [lia | vm_compute; reflexivity].
  - vm_compute. discriminate.
  - vm_compute. reflexivity.
Defined.

(** C7. The normalisation of the recipient returns [t] when [t] starts
    with ["whatsapp:"] and ["whatsapp:" ++ t] otherwise, and applying it
    twice gives what applying it once gives. *)
Theorem formattedTo_idempotent (t : string) :
  (startsWith t "whatsapp:" → formattedTo t = t)
  ∧ (¬ startsWith t "whatsapp:" → formattedTo t = "whatsapp:" ++ t)
  ∧ formattedTo (formattedTo t) = formattedTo t.
Proof.
  unfold formattedTo.
  destruct (String.prefix "whatsapp:" t) eqn:E.
  - split; [done|]. split; [|by rewrite E].
    intros Hn. apply prefix_startsWith in E. done.
  - assert (¬ startsWith t "whatsapp:") as Hn.
    { intros Hs. apply prefix_startsWith in Hs. congruence. }
    split; [done|]. split; [done|].
    assert (String.prefix "whatsapp:" ("whatsapp:" ++ t) = true) as ->; [|done].
    apply prefix_startsWith. by exists t.
Qed.

Lemma formattedTo_idempotent_witness :
  formattedTo "whatsapp:+15551234567" = "whatsapp:+15551234567"
  ∧ formattedTo "+15551234567" = "whatsapp:+15551234567"
  ∧ formattedTo (formattedTo "+15551234567") = formattedTo "+15551234567".
Proof.
  split; [|split].
  - destruct (formattedTo_idempotent "whatsapp:+15551234567") as (H & _ & _).
    apply H. exists "+15551234567". reflexivity.
  - destruct (formattedTo_idempotent "+15551234567") as (_ & H & _).
    apply H. intros [rest Hrest]. rewrite append_String in Hrest. discriminate.
  - destruct (formattedTo_idempotent "+15551234567") as (_ & _ & H).
    exact H.
Defined.

(** C10. [issue] and [verify] on [p] leave the entry of every other phone
    number as it was.  No operation changes a field of an entry: what the
    store holds after [verify] or [sweep] it held before under the same
    phone number, and after [issue] it is an old entry or the new one,
    stored whole under [p]. *)
Theorem store_frame (m : gmap string entry) (now : Z) (r : Q)
    (p s q : string) :
  (q ≠ p → (issue m now r p).2 !! q = m !! q
           ∧ (verify m now p s).2 !! q = m !! q)
  ∧ (∀ e, (issue m now r p).2 !! q = Some e →
          m !! q = Some e
          ∨ (q = p ∧ e = {| code := (issue m now r p).1;
                            expiresAt := now + 300000 |}))
  ∧ (∀ e, (verify m now p s).2 !! q = Some e → m !! q = Some e)
  ∧ (∀ e, sweep now m !! q = Some e → m !! q = Some e).
Proof.
  split; [|split; [|split]].
  - intros Hq. split.
    + rewrite issue_store. by apply lookup_insert_ne.
    + destruct (verify_store m now p s) as [-> | ->]; [done|].
      by apply lookup_delete_ne.
  - intros e. rewrite issue_store. destruct (decide (p = q)) as [->|Hq].
    + rewrite lookup_insert_eq. intros [= <-]. by right.
    + rewrite lookup_insert_ne by done. by left.
  - intros e. destruct (verify_store m now p s) as [-> | ->]; [done|].
    intros H. apply lookup_delete_Some in H. tauto.
  - intros e. rewrite sweep_lookup.
    destruct (m !! q) as [e'|]; [|done]. by destruct (expired now e').
Qed.

Lemma store_frame_witness :
  (issue sample_store 1000 (1 # 2) "+15550000000").2 !! sample_phone
    = Some sample_entry
  ∧ (verify sample_store 1000 "+15550000000" "482913").2 !! sample_phone
    = Some sample_entry.
Proof.
  destruct (store_frame sample_store 1000 (1 # 2) "+15550000000" "482913"
              sample_phone) as (H & _).
  destruct H as [H1 H2]; [discriminate|].
  split; [rewrite H1 | rewrite H2]; reflexivity.
Defined.

(** *** Histories *)

Lemma step_absent (m : gmap string entry) (o : op) p :
  m !! p = None → ¬ issues p o → step m o !! p = None.
Proof.
  intros H Ho. destruct o as [t r q | t q s | t]; simpl in *.
  - by rewrite lookup_insert_ne.
  - destruct (verify_store m t q s) as [-> | ->]; [done|].
    apply lookup_delete_None. tauto.
  - rewrite sweep_lookup. by rewrite H.
Qed.

Lemma run_absent (ops : list op) : ∀ (m : gmap string entry) p,
  m !! p = None → Forall (λ o, ¬ issues p o) ops → run ops m !! p = None.
Proof.
  induction ops as [|o ops IH]; intros m p H Hops; [done|].
  apply Forall_cons in Hops as [Ho Hops].
  apply IH; [|done]. by apply step_absent.
Qed.

(** Without a new issue for [p], the entry of [p] can only disappear. *)
Lemma step_entry (m : gmap string entry) (o : op) p e :
  ¬ issues p o → step m o !! p = Some e → m !! p = Some e.
Proof.
  intros Ho. destruct o as [t r q | t q s | t]; simpl in *.
  - by rewrite lookup_insert_ne.
  - destruct (verify_store m t q s) as [-> | ->]; [done|].
    intros H. apply lookup_delete_Some in H. tauto.
  - rewrite sweep_lookup. destruct (m !! p) as [e'|]; [|done].
    by destruct (expired t e').
Qed.

Lemma run_entry (ops : list op) : ∀ (m : gmap string entry) p e,
  Forall (λ o, ¬ issues p o) ops → run ops m !! p = Some e → m !! p = Some e.
Proof.
  induction ops as [|o ops IH]; intros m p e Hops H; [done|].
  apply Forall_cons in Hops as [Ho Hops].
  apply (step_entry m o p e Ho). by apply IH.
Qed.

Lemma filter_key_absent (l : list (string * entry)) p :
  p ∉ l.*1 → filter (λ kv : string * entry, kv.1 = p) l = [].
Proof.
  induction l as [|[k v] l IH]; [done|].
  rewrite fmap_cons, not_elem_of_cons. simpl. intros [Hk Hl].
  rewrite filter_cons. rewrite decide_False by (simpl; congruence).
  by apply IH.
Qed.

Lemma entries_for_at_most_one (m : gmap string entry) p :
  (length (entries_for p m) ≤ 1)%nat.
Proof.
  unfold entries_for.
  pose proof (NoDup_fst_map_to_list m) as Hnd.
  induction (map_to_list m) as [|[k v] l IH]; [simpl; lia|].
  rewrite fmap_cons in Hnd. apply NoDup_cons in Hnd as [Hk Hnd].
  rewrite filter_cons. case_decide as Hkp; simpl in *; [|by apply IH].
  subst k. rewrite filter_key_absent by done. simpl. lia.
Qed.

(** C1. After [issue] for [p] has stored the code [c], a [verify] with [c]
    at any time up to the expiry succeeds and deletes the entry; from then
    on, through any history that does not issue for [p] again, [verify]
    with [c] answers [InvalidOrExpired]. *)
Theorem issued_code_single_use (m : gmap string entry) (t0 : Z) (r : Q)
    (p : string) (now : Z) (ops : list op) (later : Z) :
  ¬ t0 + 300000 < now →
  Forall (λ o, ¬ issues p o) ops →
  let '(c, m1) := issue m t0 r p in
  m1 !! p = Some {| code := c; expiresAt := t0 + 300000 |}
  ∧ verify m1 now p c = (CodeVerified, delete p m1)
  ∧ delete p m1 !! p = None
  ∧ verify (run ops (delete p m1)) later p c
    = (InvalidOrExpired, run ops (delete p m1)).
Proof.
  intros Hnow Hops. simpl.
  set (e := {| code := generate_code r; expiresAt := t0 + 5 * 60 * 1000 |}).
  assert (<[p:=e]> m !! p = Some e) as He by apply lookup_insert_eq.
  split; [done|]. split.
  - apply (verify_match _ now p e He). simpl. lia.
  - split; [apply lookup_delete_eq|].
    apply verify_absent, run_absent; [apply lookup_delete_eq | done].
Qed.

Lemma issued_code_single_use_witness :
  let '(c, m1) := issue ∅ 1000 (1 # 2) sample_phone in
  m1 !! sample_phone = Some {| code := c; expiresAt := 1000 + 300000 |}
  ∧ verify m1 2000 sample_phone c = (CodeVerified, delete sample_phone m1)
  ∧ delete sample_phone m1 !! sample_phone = None
  ∧ verify (run [Sweep 3000; Verify 3500 sample_phone "123456"]
                (delete sample_phone m1)) 4000 sample_phone c
    = (InvalidOrExpired,
       run [Sweep 3000; Verify 3500 sample_phone "123456"]
           (delete sample_phone m1)).
Proof.
  apply (issued_code_single_use ∅ 1000 (1 # 2) sample_phone 2000
           [Sweep 3000; Verify 3500 sample_phone "123456"] 4000).
  - lia.
  - repeat constructor; simpl; tauto.
Defined.

(** The claim C4 as stated fails when the two draws give the same code:
    with draws 0 and 1/2097152 both codes are "100000", and the first
    code is accepted after the second issue. *)
Lemma reissue_same_code_counterexample :
  ¬ reissue_invalidates_first ∅ 0 0 [] 1000 (1 # 2097152) sample_phone 2000.
Proof. vm_compute. intros [H _]. by apply H. Qed.

(** C4, amended. After every history of [issue], [verify] and [sweep]
    the store lists at most one entry per phone number.  If [issue] for
    [p] runs twice, with any history in between, the entry of [p] is from
    then on the second one or none, until [p] is issued again; while that
    entry is live [verify] accepts exactly the second code, and the first
    code, when it differs from the second, is refused with
    [IncorrectCode]. *)
Theorem one_entry_and_reissue (m0 : gmap string entry) (ops : list op)
    (q : string) (m : gmap string entry) (t1 : Z) (r1 : Q) (mid : list op)
    (t2 : Z) (r2 : Q) (p : string) (post : list op) (now : Z) :
  (length (entries_for q (run ops m0)) ≤ 1)%nat
  ∧ (let '(c1, m1) := issue m t1 r1 p in
     let '(c2, m2) := issue (run mid m1) t2 r2 p in
     (Forall (λ o, ¬ issues p o) post →
      ∀ e, run post m2 !! p = Some e →
           e = {| code := c2; expiresAt := t2 + 300000 |})
     ∧ (¬ t2 + 300000 < now →
        (∀ s, (verify m2 now p s).1 = CodeVerified ↔ s = c2)
        ∧ (c1 ≠ c2 → verify m2 now p c1 = (IncorrectCode, m2))
        ∧ (c1 ≠ c2 → reissue_invalidates_first m t1 r1 mid t2 r2 p now))).
Proof.
  split; [apply entries_for_at_most_one|].
  unfold reissue_invalidates_first. simpl.
  set (m1 := <[p:=_]> m).
  set (e2 := {| code := generate_code r2; expiresAt := t2 + 5 * 60 * 1000 |}).
  assert (<[p:=e2]> (run mid m1) !! p = Some e2) as He by apply lookup_insert_eq.
  split.
  { intros Hpost e H. apply (run_entry post _ p e Hpost) in H.
    rewrite He in H. by injection H as <-. }
  intros Hnow.
  assert (¬ expiresAt e2 < now) as Hx by (simpl; lia).
  assert (∀ s, (verify (<[p:=e2]> (run mid m1)) now p s).1 = CodeVerified
               ↔ s = generate_code r2) as Hiff.
  { intros s. destruct (decide (s = generate_code r2)) as [->|Hs].
    - pose proof (verify_match _ now p e2 He Hx) as Hm. simpl in Hm.
      by rewrite Hm.
    - by rewrite (verify_mismatch _ now p s e2 He Hx Hs). }
  split; [exact Hiff|]. split.
  - intros Hc. by apply (verify_mismatch _ now p _ e2 He Hx).
  - intros Hc. split; [|by apply Hiff].
    by rewrite (verify_mismatch _ now p _ e2 He Hx Hc).
Qed.

Lemma one_entry_and_reissue_witness :
  (length (entries_for sample_phone
             (run [Issue 0 0 sample_phone; Issue 1000 (1 # 2) sample_phone] ∅))
   ≤ 1)%nat
  ∧ (let '(c1, m1) := issue ∅ 0 0 sample_phone in
     let '(c2, m2) := issue (run [Sweep 500] m1) 1000 (1 # 2) sample_phone in
     (Forall (λ o, ¬ issues sample_phone o) [Sweep 1500] →
      ∀ e, run [Sweep 1500] m2 !! sample_phone = Some e →
           e = {| code := c2; expiresAt := 1000 + 300000 |})
     ∧ (¬ 1000 + 300000 < 2000 →
        (∀ s, (verify m2 2000 sample_phone s).1 = CodeVerified ↔ s = c2)
        ∧ (c1 ≠ c2 → verify m2 2000 sample_phone c1 = (IncorrectCode, m2))
        ∧ (c1 ≠ c2 →
           reissue_invalidates_first ∅ 0 0 [Sweep 500] 1000 (1 # 2)
             sample_phone 2000))).
Proof.
  apply (one_entry_and_reissue ∅
           [Issue 0 0 sample_phone; Issue 1000 (1 # 2) sample_phone]
           sample_phone ∅ 0 0 [Sweep 500] 1000 (1 # 2) sample_phone
           [Sweep 1500] 2000).
Defined.

(** *** The bearer-token gate *)

Lemma truthy_Some_ne (s : string) : truthy (Some s) = true ↔ s ≠ EmptyString.
Proof. destruct s; simpl; split; congruence. Qed.

Lemma truthy_str (v : option string) :
  truthy v = true → v = Some (str v) ∧ str v ≠ EmptyString.
Proof. destruct v as [[|c s]|]; simpl; try discriminate. done. Qed.

Lemma split_no_space (s : string) : no_space s = true → split " " s = [s].
Proof.
  induction s as [|c s IH]; [done|]. simpl.
  destruct (Ascii.eqb c " "); simpl; [discriminate|].
  intros H. by rewrite IH.
Qed.

Lemma split_scheme_token (scheme tok : string) :
  no_space scheme = true → no_space tok = true →
  split " " (scheme ++ " " ++ tok) = [scheme; tok].
Proof.
  intros Hs Ht. induction scheme as [|c s IH].
  - change (EmptyString ++ " " ++ tok) with (String " " tok). simpl.
    by rewrite split_no_space.
  - rewrite append_String. simpl in *.
    destruct (Ascii.eqb c " "); simpl in *; [discriminate|].
    by rewrite IH.
Qed.

(** A header of the form [Bearer <token>] yields the token. *)
Lemma token_of_bearer (tok : string) :
  no_space tok = true → token_of (Some ("Bearer " ++ tok)) = Some tok.
Proof.
  intros Ht. unfold token_of.
  change ("Bearer " ++ tok) with ("Bearer" ++ " " ++ tok).
  assert (truthy (Some ("Bearer" ++ " " ++ tok)) = true) as -> by done.
  simpl str. by rewrite split_scheme_token.
Qed.

(** C8. On the authenticated send route: when the authorization header is
    missing, or carries no token after its first space, the answer is 401
    and the handler does not run; when a token is there and [jwt.verify]
    rejects it against the secret, the answer is 403; when [jwt.verify]
    accepts it, the decoded identity is stored in [req.user] and the
    request goes on to the handler. *)
Theorem authenticateToken_gate (twilioPhoneNumber : string)
    (create : Msg.params → string + Msg.t) (claims : Type)
    (jwt_verify : string → string → option claims)
    (env_JWT_SECRET : option string) (req : request claims) :
  let secret := JWT_SECRET env_JWT_SECRET in
  let gate := authenticateToken claims jwt_verify env_JWT_SECRET in
  let route :=
    whatsapp_send twilioPhoneNumber create claims jwt_verify env_JWT_SECRET in
  (authorization req = None → truthy (token_of (authorization req)) = false)
  ∧ (truthy (token_of (authorization req)) = false →
     gate req = Respond Unauthenticated
     ∧ route req = Unauthenticated
     ∧ status_of (route req) = 401)
  ∧ (∀ token,
       token_of (authorization req) = Some token → token ≠ EmptyString →
       jwt_verify token secret = None →
     gate req = Respond Forbidden
     ∧ route req = Forbidden
     ∧ status_of (route req) = 403)
  ∧ (∀ token u,
       token_of (authorization req) = Some token → token ≠ EmptyString →
       jwt_verify token secret = Some u →
     gate req = Next {| authorization := authorization req;
                        body := body req;
                        user := Some u |}
     ∧ route req = dispatch twilioPhoneNumber create (body req)).
Proof.
  intros secret gate route. subst secret gate route.
  unfold whatsapp_send, authenticateToken.
  split; [by intros ->|]. split; [|split].
  - intros ->. done.
  - intros token Htok Hne Hv. rewrite Htok.
    apply truthy_Some_ne in Hne. rewrite Hne. simpl. by rewrite Hv.
  - intros token u Htok Hne Hv. rewrite Htok.
    apply truthy_Some_ne in Hne. rewrite Hne. simpl. by rewrite Hv.
Qed.

Lemma authenticateToken_gate_witness :
  let route :=
    whatsapp_send "+14155238886" sample_create string sample_jwt_verify
      (Some sample_secret) in
  route (sample_request None) = Unauthenticated
  ∧ route (sample_request (Some "Bearer")) = Unauthenticated
  ∧ route (sample_request (Some "Bearer bad.token")) = Forbidden
  ∧ route (sample_request (Some "Bearer good.token")) = MessageSent "SM1" "queued".
Proof.
  intros route. subst route. split; [|split; [|split]].
  - destruct (authenticateToken_gate "+14155238886" sample_create string
                sample_jwt_verify (Some sample_secret) (sample_request None))
      as (_ & H & _).
    apply H. reflexivity.
  - destruct (authenticateToken_gate "+14155238886" sample_create string
                sample_jwt_verify (Some sample_secret)
                (sample_request (Some "Bearer")))
      as (_ & H & _).
    apply H. reflexivity.
  - destruct (authenticateToken_gate "+14155238886" sample_create string
                sample_jwt_verify (Some sample_secret)
                (sample_request (Some "Bearer bad.token")))
      as (_ & _ & H & _).
    apply (H "bad.token"); [reflexivity | discriminate | reflexivity].
  - destruct (authenticateToken_gate "+14155238886" sample_create string
                sample_jwt_verify (Some sample_secret)
                (sample_request (Some "Bearer good.token")))
      as (_ & _ & _ & H).
    destruct (H "good.token" "alice") as [_ ->];
      [reflexivity | discriminate | reflexivity | reflexivity].
Defined.

(** ** Further facts *)

(** *** The handlers around the store *)

Lemma pretty_N_go_length_ge (y : N) : ∀ s : string,
  (String.length s ≤ String.length (pretty_N_go y s))%nat.
Proof.
  induction (N.lt_wf_0 y) as [y _ IH]; intros s.
  destruct (decide (y = 0)%N) as [->|Hy]; [by rewrite pretty_N_go_0|].
  rewrite pretty_N_go_cons by lia.
  etrans; [|apply IH; lia]. simpl. lia.
Qed.

Lemma toString_nonempty (n : Z) : toString n ≠ EmptyString.
Proof.
  destruct n as [|x|x]; [done| |done].
  unfold toString, pretty, pretty_Z, pretty, pretty_positive, pretty, pretty_N.
  rewrite decide_False by done.
  rewrite pretty_N_go_cons by lia. intros H.
  pose proof (pretty_N_go_length_ge (N.div (N.pos x) 10)
                (String (pretty_N_char (N.modulo (N.pos x) 10)) EmptyString)) as Hl.
  rewrite H in Hl. simpl in Hl. lia.
Qed.

Lemma send_code_missing tw create (m : gmap string entry) now r b :
  truthy (Body.phoneNumber b) = false →
  send_code tw create m now r b = (PhoneRequired, m).
Proof. intros H. unfold send_code. by rewrite H. Qed.

(** Past the guard the entry is stored whether or not the provider
    accepts the message. *)
Lemma send_code_stores tw create (m : gmap string entry) now r b :
  truthy (Body.phoneNumber b) = true →
  (send_code tw create m now r b).2
  = (issue m now r (str (Body.phoneNumber b))).2.
Proof.
  intros H. unfold send_code. rewrite H. simpl.
  by destruct (create _).
Qed.

Lemma send_code_sent tw create (m : gmap string entry) now r b message :
  truthy (Body.phoneNumber b) = true →
  create {| Msg.body := "Your verification code is: " ++ generate_code r;
            Msg.from := "whatsapp:" ++ tw;
            Msg.to := formattedTo (str (Body.phoneNumber b)) |}
  = inr message →
  send_code tw create m now r b
  = (CodeSent (generate_code r) (Msg.sid message),
     (issue m now r (str (Body.phoneNumber b))).2).
Proof. intros H Hc. unfold send_code. rewrite H. simpl. by rewrite Hc. Qed.

(** X10. The two endpoints in sequence: the code returned by [send-code]
    for a non-empty phone number is accepted by [verify-code] at any time
    up to five minutes after the issue, and refused with "Invalid or
    expired code" when sent again. *)
Lemma send_code_then_verify_code tw create (m : gmap string entry) t0 r p
    code sid m1 now later :
  p ≠ EmptyString →
  send_code tw create m t0 r
    {| Body.phoneNumber := Some p; Body.code := None;
       Body.to := None; Body.body := None |}
  = (CodeSent code sid, m1) →
  ¬ t0 + 300000 < now →
  let b := {| Body.phoneNumber := Some p; Body.code := Some code;
              Body.to := None; Body.body := None |} in
  verify_code m1 now b = (CodeVerified, delete p m1)
  ∧ verify_code (delete p m1) later b = (InvalidOrExpired, delete p m1).
Proof.
  intros Hp Hs Hnow b.
  apply truthy_Some_ne in Hp. unfold send_code in Hs.
  cbn [Body.phoneNumber] in Hs. rewrite Hp in Hs.
  cbn [negb issue str default] in Hs.
  destruct (create _); [done|]. injection Hs as <- _ <-.
  assert (truthy (Some (generate_code r)) = true) as Hc
    by apply truthy_Some_ne, toString_nonempty.
  rewrite !verify_code_guarded by done. simpl.
  set (e := {| code := generate_code r; expiresAt := t0 + 5 * 60 * 1000 |}).
  split.
  - apply (verify_match _ now p e); [apply lookup_insert_eq | simpl; lia].
  - apply verify_absent, lookup_delete_eq.
Qed.

Lemma send_code_then_verify_code_witness :
  let b := {| Body.phoneNumber := Some sample_phone;
              Body.code := Some "550000";
              Body.to := None; Body.body := None |} in
  verify_code (<[sample_phone := {| code := "550000"; expiresAt := 301000 |}]> ∅)
    2000 b
  = (CodeVerified,
     delete sample_phone
       (<[sample_phone := {| code := "550000"; expiresAt := 301000 |}]> ∅))
  ∧ verify_code
      (delete sample_phone
         (<[sample_phone := {| code := "550000"; expiresAt := 301000 |}]> ∅))
      3000 b
    = (InvalidOrExpired,
       delete sample_phone
         (<[sample_phone := {| code := "550000"; expiresAt := 301000 |}]> ∅)).
Proof.
  apply (send_code_then_verify_code "+14155238886" sample_create ∅ 1000
           (1 # 2) sample_phone "550000" "SM1"
           (<[sample_phone := {| code := "550000"; expiresAt := 301000 |}]> ∅)
           2000 3000).
  - discriminate.
  - vm_compute. reflexivity.
  - lia.
Defined.

(** Through the endpoint, for a request whose two fields are non-empty:
    a wrong code against a live entry. *)
Lemma verify_code_incorrect (m : gmap string entry) now p s e :
  p ≠ EmptyString → s ≠ EmptyString →
  m !! p = Some e → ¬ expiresAt e < now → s ≠ code e →
  verify_code m now {| Body.phoneNumber := Some p; Body.code := Some s;
                       Body.to := None; Body.body := None |}
  = (IncorrectCode, m).
Proof.
  intros Hp Hs H Hx Hne.
  rewrite verify_code_guarded by (by apply truthy_Some_ne).
  by apply (verify_mismatch m now p s e).
Qed.

(** Through the endpoint: no entry, or an expired one. *)
Lemma verify_code_invalid (m : gmap string entry) now p s :
  p ≠ EmptyString → s ≠ EmptyString →
  (m !! p = None ∨ ∃ e, m !! p = Some e ∧ expiresAt e < now) →
  verify_code m now {| Body.phoneNumber := Some p; Body.code := Some s;
                       Body.to := None; Body.body := None |}
  = (InvalidOrExpired, m).
Proof.
  intros Hp Hs H.
  rewrite verify_code_guarded by (by apply truthy_Some_ne). simpl.
  destruct H as [H|(e & H & Hx)];
    [by apply verify_absent | by eapply verify_expired].
Qed.

(** The recipient handed to the provider by the message routes is the
    normalised one. *)
Lemma dispatch_recipient tw create b :
  truthy (Body.to b) = true → truthy (Body.body b) = true →
  dispatch tw create b
  = match create {| Msg.body := str (Body.body b);
                    Msg.from := "whatsapp:" ++ tw;
                    Msg.to := formattedTo (str (Body.to b)) |} with
    | inr message => MessageSent (Msg.sid message) (Msg.status message)
    | inl error => ErrorJson 500 "Failed to send WhatsApp message" (Some error)
    end.
Proof. intros Ht Hb. unfold dispatch. by rewrite Ht, Hb. Qed.

(** * More of the store *)

(** ** Sweeps *)

Lemma sweep_delete t (m : gmap string entry) p :
  sweep t (delete p m) = delete p (sweep t m).
Proof.
  apply map_eq. intros q. rewrite sweep_lookup.
  destruct (decide (p = q)) as [->|Hq].
  - by rewrite !lookup_delete_eq.
  - rewrite !lookup_delete_ne by done. by rewrite sweep_lookup.
Qed.

Lemma sweep_insert_live t (m : gmap string entry) p e :
  ¬ expiresAt e < t → sweep t (<[p:=e]> m) = <[p:=e]> (sweep t m).
Proof.
  intros He. apply expired_false in He.
  apply map_eq. intros q. rewrite sweep_lookup.
  destruct (decide (p = q)) as [->|Hq].
  - rewrite !lookup_insert_eq. by rewrite He.
  - rewrite !lookup_insert_ne by done. by rewrite sweep_lookup.
Qed.

Lemma sweep_swap t t' (m : gmap string entry) :
  sweep t' (sweep t m) = sweep (Z.max t t') m.
Proof.
  apply map_eq. intros p. rewrite !sweep_lookup.
  destruct (m !! p) as [e|]; [|done].
  unfold expired.
  destruct (Z.ltb_spec (expiresAt e) t), (Z.ltb_spec (expiresAt e) t'),
    (Z.ltb_spec (expiresAt e) (Z.max t t')); try done; lia.
Qed.

(** X1. Two sweeps in a row, in either order, leave what one sweep at the
    later of the two times leaves; a second sweep at the same time changes
    nothing. *)
Theorem sweep_compose (m : gmap string entry) (t t' : Z) :
  sweep t' (sweep t m) = sweep (Z.max t t') m
  ∧ sweep t (sweep t' m) = sweep t' (sweep t m)
  ∧ sweep t (sweep t m) = sweep t m.
Proof.
  split; [apply sweep_swap|]. split.
  - rewrite !sweep_swap. f_equal. lia.
  - rewrite sweep_swap. f_equal. lia.
Qed.

(** X2. A sweep leaves the store as it is exactly when no entry has
    expired; in particular the store after a sweep holds no expired
    entry. *)
Theorem sweep_fixed_point (m : gmap string entry) (now : Z) :
  (sweep now m = m ↔ ∀ p e, m !! p = Some e → ¬ expiresAt e < now)
  ∧ ∀ p e, sweep now m !! p = Some e → ¬ expiresAt e < now.
Proof.
  split; [split|].
  - intros Heq p e H. rewrite <- Heq in H. rewrite sweep_lookup in H.
    destruct (m !! p) as [e'|]; [|done].
    destruct (expired now e') eqn:X; [done|].
    injection H as <-. by apply expired_false.
  - intros Hlive. apply map_eq. intros p. rewrite sweep_lookup.
    destruct (m !! p) as [e|] eqn:E; [|done].
    apply Hlive, expired_false in E. by rewrite E.
  - intros p e. rewrite sweep_lookup.
    destruct (m !! p) as [e'|]; [|done].
    destruct (expired now e') eqn:X; [done|].
    intros [= <-]. by apply expired_false.
Qed.

Lemma step_sweep t (m : gmap string entry) (o : op) :
  t ≤ op_time o → step (sweep t m) o = sweep t (step m o).
Proof.
  intros Ht. destruct o as [now r p | now p s | now]; simpl in *.
  - symmetry. apply sweep_insert_live. simpl. lia.
  - unfold verify. rewrite sweep_lookup.
    destruct (m !! p) as [e|] eqn:E; [|done].
    destruct (expired t e) eqn:X.
    + apply expired_true in X.
      assert (expired now e = true) as -> by (apply expired_true; lia). done.
    + destruct (expired now e); [done|].
      destruct (negb (String.eqb (code e) s)); [done|].
      simpl. by rewrite sweep_delete.
  - rewrite !sweep_swap. f_equal. lia.
Qed.

Lemma run_sweep t (ops : list op) : ∀ m : gmap string entry,
  Forall (λ o, t ≤ op_time o) ops → run ops (sweep t m) = sweep t (run ops m).
Proof.
  induction ops as [|o ops IH]; intros m Hops; [done|].
  apply Forall_cons in Hops as [Ho Hops]. simpl.
  rewrite step_sweep by done. by apply IH.
Qed.

(** X3. A sweep cannot be observed by what comes after it: running a
    history whose operations all read a clock not before the sweep gives,
    on the swept store, the sweep of what it gives on the store as it was,
    and a later [verify] answers the same on both. *)
Theorem sweep_unobservable (m : gmap string entry) (t : Z) (ops : list op)
    (now : Z) (p s : string) :
  Forall (λ o, t ≤ op_time o) ops → t ≤ now →
  run ops (sweep t m) = sweep t (run ops m)
  ∧ (verify (run ops (sweep t m)) now p s).1 = (verify (run ops m) now p s).1.
Proof.
  intros Hops Hnow. rewrite run_sweep by done.
  split; [done|]. by apply verify_after_sweep.
Qed.

Lemma sweep_unobservable_witness :
  run [Issue 2000 (1 # 2) "+15550000000"; Verify 3000 sample_phone "482913"]
      (sweep 1000 sample_store)
  = sweep 1000
      (run [Issue 2000 (1 # 2) "+15550000000";
            Verify 3000 sample_phone "482913"] sample_store)
  ∧ (verify (run [Issue 2000 (1 # 2) "+15550000000";
                  Verify 3000 sample_phone "482913"]
               (sweep 1000 sample_store)) 4000 sample_phone "482913").1
    = (verify (run [Issue 2000 (1 # 2) "+15550000000";
                    Verify 3000 sample_phone "482913"] sample_store)
         4000 sample_phone "482913").1.
Proof.
  apply (sweep_unobservable sample_store 1000
           [Issue 2000 (1 # 2) "+15550000000";
            Verify 3000 sample_phone "482913"] 4000 sample_phone "482913").
  - repeat constructor; simpl; lia.
  - lia.
Defined.

(** ** The life of an entry *)

Lemma verify_wrong_code_store (m : gmap string entry) now p s e :
  m !! p = Some e → s ≠ code e → (verify m now p s).2 = m.
Proof.
  intros H Hs. unfold verify. rewrite H.
  destruct (expired now e); [done|].
  assert (String.eqb (code e) s = false) as ->
    by (apply String.eqb_neq; congruence).
  done.
Qed.

(** X4. Wrong guesses are never counted: after any number of [verify]
    calls for [p] with codes other than the stored one, at any times, the
    store is what it was, and the stored code is still accepted up to the
    expiry. *)
Theorem wrong_guesses_keep_entry (m : gmap string entry) (p : string)
    (e : entry) (guesses : list (Z * string)) (later : Z) :
  m !! p = Some e →
  Forall (λ g, g.2 ≠ code e) guesses →
  ¬ expiresAt e < later →
  try_codes p m guesses = m
  ∧ verify (try_codes p m guesses) later p (code e)
    = (CodeVerified, delete p m).
Proof.
  intros H Hg Hl.
  assert (try_codes p m guesses = m) as ->.
  { unfold try_codes. induction Hg as [|g gs Hg _ IH]; [done|].
    simpl. by rewrite (verify_wrong_code_store m g.1 p g.2 e). }
  split; [done|]. by apply verify_match.
Qed.

Lemma wrong_guesses_keep_entry_witness :
  try_codes sample_phone sample_store
    [(1000, "000000"); (2000, "111111"); (400000, "222222")] = sample_store
  ∧ verify (try_codes sample_phone sample_store
              [(1000, "000000"); (2000, "111111"); (400000, "222222")])
      300000 sample_phone (code sample_entry)
    = (CodeVerified, delete sample_phone sample_store).
Proof.
  apply (wrong_guesses_keep_entry sample_store sample_phone sample_entry
           [(1000, "000000"); (2000, "111111"); (400000, "222222")] 300000).
  - vm_compute. reflexivity.
  - repeat constructor; discriminate.
  - simpl. lia.
Defined.

Lemma step_dom (m : gmap string entry) (o : op) q :
  q ∈ dom (step m o) → q ∈ dom m ∨ q ∈ issued [o].
Proof.
  rewrite !elem_of_dom.
  destruct o as [now r p | now p s | now]; simpl; intros [e He].
  - destruct (decide (p = q)) as [->|Hq].
    + right. rewrite elem_of_union, elem_of_singleton. by left.
    + rewrite lookup_insert_ne in He by done. left. by exists e.
  - left. destruct (verify_store m now p s) as [Hv | Hv]; rewrite Hv in He.
    + by exists e.
    + apply lookup_delete_Some in He as [_ He]. by exists e.
  - rewrite sweep_lookup in He. destruct (m !! q) as [e'|]; [|done].
    left. by exists e'.
Qed.

Lemma issued_cons (o : op) (ops : list op) q :
  q ∈ issued (o :: ops) ↔ q ∈ issued [o] ∨ q ∈ issued ops.
Proof.
  destruct o; simpl; rewrite ?elem_of_union, ?elem_of_empty; tauto.
Qed.

(** X5. Only [issue] adds a phone number to the store: after any history
    the store's phone numbers are among those it had and those issued in
    the history, and the number of entries has grown by at most the
    number of operations. *)
Theorem keys_only_from_issue (ops : list op) (m : gmap string entry) :
  dom (run ops m) ⊆ dom m ∪ issued ops
  ∧ (size (run ops m) ≤ size m + length ops)%nat.
Proof.
  revert m. induction ops as [|o ops IH]; intros m.
  - simpl. split; [|lia]. intros q Hq. apply elem_of_union. by left.
  - destruct (IH (step m o)) as [IHd IHs]. split.
    + change (run (o :: ops) m) with (run ops (step m o)).
      intros q Hq. apply IHd, elem_of_union in Hq as [Hq|Hq].
      * apply step_dom in Hq as [Hq|Hq]; apply elem_of_union;
          [by left | right; apply issued_cons; by left].
      * apply elem_of_union. right. apply issued_cons. by right.
    + change (run (o :: ops) m) with (run ops (step m o)).
      assert (size (step m o) ≤ S (size m))%nat; [|simpl; lia].
      destruct o as [now r p | now p s | now]; simpl.
      * destruct (m !! p) as [e|] eqn:E.
        -- rewrite map_size_insert_Some by eauto. lia.
        -- rewrite map_size_insert_None by done. lia.
      * destruct (verify_store m now p s) as [-> | ->]; [lia|].
        rewrite map_size_delete. destruct (m !! p); simpl; lia.
      * rewrite sweep_filter.
        pose proof (map_size_filter
                      (λ kv : string * entry, ¬ expiresAt kv.2 < now) m).
        lia.
Qed.

Lemma step_keeps (m : gmap string entry) (o : op) p e :
  m !! p = Some e → keeps p (code e) (expiresAt e) o → step m o !! p = Some e.
Proof.
  intros H Hk. destruct o as [now r q | now q s | now]; simpl in *.
  - by rewrite lookup_insert_ne.
  - destruct Hk as [Hq | Hs].
    + destruct (verify_store m now q s) as [-> | ->]; [done|].
      by rewrite lookup_delete_ne.
    + destruct (decide (q = p)) as [->|Hq].
      * by rewrite (verify_wrong_code_store m now p s e).
      * destruct (verify_store m now q s) as [-> | ->]; [done|].
        by rewrite lookup_delete_ne.
  - rewrite sweep_lookup, H.
    assert (expired now e = false) as -> by (apply expired_false; lia). done.
Qed.

(** X6. An issued code stays in the store through its window: a history
    of issues for other numbers, [verify] calls for other numbers or with
    other codes, and sweeps not past the expiry leaves the entry as
    issued, and [verify] with the code then succeeds up to the expiry. *)
Theorem code_persists_in_window (m : gmap string entry) (t0 : Z) (r : Q)
    (p : string) (ops : list op) (now : Z) :
  Forall (keeps p (generate_code r) (t0 + 300000)) ops →
  ¬ t0 + 300000 < now →
  let '(c, m1) := issue m t0 r p in
  run ops m1 !! p = Some {| code := c; expiresAt := t0 + 300000 |}
  ∧ (verify (run ops m1) now p c).1 = CodeVerified.
Proof.
  intros Hops Hnow. simpl.
  set (e := {| code := generate_code r; expiresAt := t0 + 5 * 60 * 1000 |}).
  assert (∀ m' : gmap string entry,
            m' !! p = Some e → run ops m' !! p = Some e) as Hrun.
  { induction Hops as [|o ops Ho _ IH]; intros m' H; [done|].
    simpl. apply IH. by apply step_keeps. }
  pose proof (Hrun _ (lookup_insert_eq m p e)) as H.
  split; [exact H|].
  assert (¬ expiresAt e < now) as Hx by (simpl; lia).
  pose proof (verify_match _ now p e H Hx) as Hv. simpl in Hv.
  by rewrite Hv.
Qed.

Lemma code_persists_in_window_witness :
  let '(c, m1) := issue ∅ 1000 (1 # 2) sample_phone in
  run [Sweep 301000; Verify 2000 sample_phone "123456";
       Issue 3000 0 "+15550000000"] m1 !! sample_phone
  = Some {| code := c; expiresAt := 1000 + 300000 |}
  ∧ (verify (run [Sweep 301000; Verify 2000 sample_phone "123456";
                  Issue 3000 0 "+15550000000"] m1)
       301000 sample_phone c).1 = CodeVerified.
Proof.
  apply (code_persists_in_window ∅ 1000 (1 # 2) sample_phone
           [Sweep 301000; Verify 2000 sample_phone "123456";
            Issue 3000 0 "+15550000000"] 301000).
  - constructor; [simpl; lia|].
    constructor; [right; vm_compute; discriminate|].
    constructor; [simpl; discriminate|]. constructor.
  - lia.
Defined.

(** X7. A code that is not used is removed by the first sweep after its
    expiry: once [issue] for [p] has run at [t0], any history without a
    new issue for [p] that ends in a sweep later than [t0 + 300000]
    leaves no entry for [p], so the store does not keep dead codes. *)
Theorem expired_code_swept (m : gmap string entry) (t0 : Z) (r : Q)
    (p : string) (ops : list op) (now : Z) :
  Forall (λ o, ¬ issues p o) ops →
  t0 + 300000 < now →
  run (ops ++ [Sweep now]) (issue m t0 r p).2 !! p = None.
Proof.
  intros Hops Hnow. unfold run. rewrite foldl_app. simpl.
  fold (run ops (<[p:={| code := generate_code r;
                         expiresAt := t0 + 5 * 60 * 1000 |}]> m)).
  rewrite sweep_lookup.
  destruct (run ops _ !! p) as [e|] eqn:E; [|done].
  apply (run_entry ops _ p e Hops) in E.
  rewrite lookup_insert_eq in E. injection E as <-.
  assert (expired now {| code := generate_code r;
                         expiresAt := t0 + 5 * 60 * 1000 |} = true) as ->
    by (apply expired_true; simpl; lia).
  done.
Qed.

Lemma expired_code_swept_witness :
  run ([Verify 2000 sample_phone "123456"; Sweep 60000] ++ [Sweep 301001])
      (issue ∅ 1000 (1 # 2) sample_phone).2 !! sample_phone = None.
Proof.
  apply (expired_code_swept ∅ 1000 (1 # 2) sample_phone
           [Verify 2000 sample_phone "123456"; Sweep 60000] 301001).
  - repeat constructor; simpl; tauto.
  - lia.
Defined.

(** ** The endpoints of the code store *)

Lemma verify_code_store (m : gmap string entry) now b :
  (verify_code m now b).2 = m
  ∨ (verify_code m now b).2 = delete (str (Body.phoneNumber b)) m.
Proof.
  unfold verify_code.
  destruct (negb (truthy (Body.phoneNumber b)) || negb (truthy (Body.code b)));
    [by left | apply verify_store].
Qed.

Lemma serve_well_formed tw create (m : gmap string entry) (c : call) :
  draw_in_range c →
  (∀ p e, m !! p = Some e → well_formed_entry p e) →
  ∀ p e, serve tw create m c !! p = Some e → well_formed_entry p e.
Proof.
  intros Hc Hm p e. destruct c as [now r b | now b | now]; simpl in *.
  - destruct (truthy (Body.phoneNumber b)) eqn:Hp.
    + rewrite send_code_stores by done. rewrite issue_store.
      destruct (truthy_str _ Hp) as [_ Hne].
      destruct (decide (str (Body.phoneNumber b) = p)) as [<-|Hq].
      * rewrite lookup_insert_eq. intros [= <-].
        destruct Hc as (Hb & H0 & H1).
        destruct (toString_six_digits _ (code_floor_range r Hb H0 H1))
          as [Hl Hd].
        done.
      * rewrite lookup_insert_ne by done. apply Hm.
    + rewrite send_code_missing by done. apply Hm.
  - destruct (verify_code_store m now b) as [-> | ->]; [apply Hm|].
    intros H. apply lookup_delete_Some in H as [_ H]. by apply Hm.
  - rewrite sweep_lookup. destruct (m !! p) as [e'|] eqn:E; [|done].
    destruct (expired now e'); [done|]. intros [= <-]. by apply Hm.
Qed.

(** X8. Through any history of [send-code] and [verify-code] requests
    whose fields are strings or absent, and of timer ticks, with draws
    that [Math.random()] can return (doubles in [0, 1)), every entry of
    the store has a non-empty phone number and a code of six digits: the
    field check of [send-code] keeps the empty phone number out, and
    nothing else writes to the store. *)
Theorem served_entries_well_formed (tw : string)
    (create : Msg.params → string + Msg.t) (cs : list call)
    (m : gmap string entry) :
  Forall draw_in_range cs →
  (∀ p e, m !! p = Some e → well_formed_entry p e) →
  ∀ p e, serve_all tw create cs m !! p = Some e → well_formed_entry p e.
Proof.
  intros Hcs. revert m. induction Hcs as [|c cs Hc _ IH]; intros m Hm; [done|].
  simpl. apply IH. by apply serve_well_formed.
Qed.

Lemma served_entries_well_formed_witness :
  serve_all "+14155238886" failing_create
    [SendCode 1000 (1 # 2) (phone_body sample_phone);
     SendCode 2000 0 (phone_body EmptyString);
     VerifyCode 3000 (verify_body sample_phone "000000");
     Tick 60000] ∅ !! sample_phone
  = Some {| code := "550000"; expiresAt := 301000 |}
  ∧ well_formed_entry sample_phone {| code := "550000"; expiresAt := 301000 |}.
Proof.
  assert (serve_all "+14155238886" failing_create
            [SendCode 1000 (1 # 2) (phone_body sample_phone);
             SendCode 2000 0 (phone_body EmptyString);
             VerifyCode 3000 (verify_body sample_phone "000000");
             Tick 60000] ∅ !! sample_phone
          = Some {| code := "550000"; expiresAt := 301000 |}) as H
    by (vm_compute; reflexivity).
  split; [exact H|].
  apply (served_entries_well_formed "+14155238886" failing_create
           [SendCode 1000 (1 # 2) (phone_body sample_phone);
            SendCode 2000 0 (phone_body EmptyString);
            VerifyCode 3000 (verify_body sample_phone "000000");
            Tick 60000] ∅); [| |exact H].
  - constructor.
    { split; [|split; vm_compute; [discriminate | reflexivity]].
      exists 1, (-1). split; [reflexivity|]. split; [lia | reflexivity]. }
    constructor.
    { split; [|split; vm_compute; [discriminate | reflexivity]].
      exists 0, 0. split; [reflexivity|]. split; [lia | reflexivity]. }
    constructor; [exact I|]. constructor; [exact I|]. constructor.
  - intros p e Hp. by rewrite lookup_empty in Hp.
Defined.

Lemma send_code_failed tw create (m : gmap string entry) now r b error :
  truthy (Body.phoneNumber b) = true →
  create {| Msg.body := "Your verification code is: " ++ generate_code r;
            Msg.from := "whatsapp:" ++ tw;
            Msg.to := formattedTo (str (Body.phoneNumber b)) |}
  = inl error →
  send_code tw create m now r b
  = (ErrorJson 500 "Failed to send verification code" (Some error),
     (issue m now r (str (Body.phoneNumber b))).2).
Proof. intros H Hc. unfold send_code. rewrite H. simpl. by rewrite Hc. Qed.

(** X9. A delivery that fails still leaves a usable code: when the
    provider rejects the message, [send-code] answers 500 with the
    provider's error text, yet the entry has been stored, and
    [verify-code] with that code succeeds up to the expiry. *)
Theorem failed_send_leaves_code (tw : string)
    (create : Msg.params → string + Msg.t) (m : gmap string entry)
    (t0 : Z) (r : Q) (p error : string) (now : Z) :
  p ≠ EmptyString →
  create {| Msg.body := "Your verification code is: " ++ generate_code r;
            Msg.from := "whatsapp:" ++ tw;
            Msg.to := formattedTo p |} = inl error →
  ¬ t0 + 300000 < now →
  let '(resp, m1) := send_code tw create m t0 r (phone_body p) in
  resp = ErrorJson 500 "Failed to send verification code" (Some error)
  ∧ m1 !! p = Some {| code := generate_code r; expiresAt := t0 + 300000 |}
  ∧ verify_code m1 now (verify_body p (generate_code r))
    = (CodeVerified, delete p m1).
Proof.
  intros Hp Hc Hnow. apply truthy_Some_ne in Hp as Ht.
  rewrite (send_code_failed tw create m t0 r (phone_body p) error Ht Hc).
  rewrite issue_store. cbn [phone_body Body.phoneNumber str default
                            from_option id].
  set (e := {| code := generate_code r; expiresAt := t0 + 300000 |}).
  assert (<[p:=e]> m !! p = Some e) as He by apply lookup_insert_eq.
  split; [done|]. split; [done|].
  rewrite verify_code_guarded;
    [|done | by apply truthy_Some_ne, toString_nonempty].
  apply (verify_match _ now p e He). simpl. lia.
Qed.

Lemma failed_send_leaves_code_witness :
  let '(resp, m1) :=
    send_code "+14155238886" failing_create ∅ 1000 (1 # 2)
      (phone_body sample_phone) in
  resp = ErrorJson 500 "Failed to send verification code"
           (Some "provider unavailable")
  ∧ m1 !! sample_phone
    = Some {| code := generate_code (1 # 2); expiresAt := 1000 + 300000 |}
  ∧ verify_code m1 2000 (verify_body sample_phone (generate_code (1 # 2)))
    = (CodeVerified, delete sample_phone m1).
Proof.
  apply (failed_send_leaves_code "+14155238886" failing_create ∅ 1000 (1 # 2)
           sample_phone "provider unavailable" 2000).
  - discriminate.
  - reflexivity.
  - lia.
Defined.

(** X11. Among the requests whose body is an object with [phoneNumber]
    and [code] each a string or absent, [verify-code] accepts exactly
    those that carry a non-empty phone number and the non-empty code of a
    stored entry that has not expired.  An accepted request deletes that
    entry; every other such request is answered 400 and leaves the store
    as it was. *)
Theorem verify_code_accepts_iff (m : gmap string entry) (now : Z)
    (b : Body.t) :
  ((verify_code m now b).1 = CodeVerified
   ↔ ∃ p e, Body.phoneNumber b = Some p ∧ p ≠ EmptyString
            ∧ Body.code b = Some (code e) ∧ code e ≠ EmptyString
            ∧ m !! p = Some e ∧ ¬ expiresAt e < now)
  ∧ ((verify_code m now b).1 = CodeVerified →
     (verify_code m now b).2 = delete (str (Body.phoneNumber b)) m)
  ∧ ((verify_code m now b).1 ≠ CodeVerified →
     (verify_code m now b).2 = m ∧ status_of (verify_code m now b).1 = 400).
Proof.
  unfold verify_code.
  destruct (truthy (Body.phoneNumber b)) eqn:Hp; simpl.
  2:{ split; [|split]; [|done|done].
      split; [done|]. intros (p & e & Hb & Hne & _).
      rewrite Hb in Hp. apply truthy_Some_ne in Hne. congruence. }
  destruct (truthy (Body.code b)) eqn:Hc; simpl.
  2:{ split; [|split]; [|done|done].
      split; [done|]. intros (p & e & _ & _ & Hb & Hne & _).
      rewrite Hb in Hc. apply truthy_Some_ne in Hne. congruence. }
  destruct (truthy_str _ Hp) as [Hbp Hpne].
  destruct (truthy_str _ Hc) as [Hbc Hcne].
  set (p := str (Body.phoneNumber b)) in *.
  set (s := str (Body.code b)) in *.
  unfold verify. destruct (m !! p) as [e|] eqn:E.
  2:{ split; [|split]; [|done|done].
      split; [done|]. intros (p' & e & Hb & _ & _ & _ & Hm & _).
      congruence. }
  destruct (expired now e) eqn:X.
  { apply expired_true in X. split; [|split]; [|done|done].
    split; [done|]. intros (p' & e' & Hb & _ & _ & _ & Hm & Hx).
    assert (p' = p) as -> by congruence.
    assert (e' = e) as -> by congruence. done. }
  apply expired_false in X.
  destruct (String.eqb (code e) s) eqn:Q; simpl.
  - apply String.eqb_eq in Q. split; [|split]; [|done|done].
    split; [|done]. intros _. exists p, e. rewrite Q. done.
  - apply String.eqb_neq in Q. split; [|split]; [|done|done].
    split; [done|]. intros (p' & e' & Hb & _ & Hb' & _ & Hm & _).
    assert (p' = p) as -> by congruence.
    assert (e' = e) as -> by congruence. congruence.
Qed.

(** * More of the bearer-token gate *)

Lemma split_first (a rest : string) :
  no_space a = true → split " " (a ++ " " ++ rest) = a :: split " " rest.
Proof.
  induction a as [|c a IH]; intros Ha.
  - reflexivity.
  - rewrite append_String. simpl in *.
    destruct (Ascii.eqb c " "); simpl in *; [discriminate|].
    by rewrite IH.
Qed.

Lemma truthy_with_space (a rest : string) :
  truthy (Some (a ++ " " ++ rest)) = true.
Proof. by destruct a. Qed.

Lemma token_of_first_field (a rest : string) :
  no_space a = true →
  token_of (Some (a ++ " " ++ rest)) = head (split " " rest).
Proof.
  intros Ha. unfold token_of. rewrite truthy_with_space.
  change (str (Some (a ++ " " ++ rest))) with (a ++ " " ++ rest).
  rewrite split_first by done.
  by destruct (split " " rest).
Qed.

(** X12. The token the gate reads is what stands between the first and
    the second space of the header: a header made of a scheme word, a
    space and a token without spaces gives back that token, also when
    more fields follow. *)
Theorem token_between_spaces (scheme token : string) :
  no_space scheme = true → no_space token = true →
  token_of (Some (scheme ++ " " ++ token)) = Some token
  ∧ ∀ more, token_of (Some (scheme ++ " " ++ token ++ " " ++ more))
            = Some token.
Proof.
  intros Hs Ht. split.
  - rewrite token_of_first_field by done. by rewrite split_no_space.
  - intros more. rewrite token_of_first_field by done.
    by rewrite split_first.
Qed.

Lemma token_between_spaces_witness :
  token_of (Some ("Bearer" ++ " " ++ "abc.def.ghi")) = Some "abc.def.ghi"
  ∧ ∀ more, token_of (Some ("Bearer" ++ " " ++ "abc.def.ghi" ++ " " ++ more))
            = Some "abc.def.ghi".
Proof.
  apply (token_between_spaces "Bearer" "abc.def.ghi"); reflexivity.
Defined.

(** X13. The scheme word of the header is never inspected: two requests
    that differ only in the word before the first space (say [Basic] for
    [Bearer]) get the same answer from the authenticated route. *)
Theorem scheme_not_inspected (twilioPhoneNumber : string)
    (create : Msg.params → string + Msg.t) (claims : Type)
    (jwt_verify : string → string → option claims)
    (env_JWT_SECRET : option string)
    (scheme1 scheme2 rest : string) (b : Body.t) (u : option claims) :
  no_space scheme1 = true → no_space scheme2 = true →
  whatsapp_send twilioPhoneNumber create claims jwt_verify env_JWT_SECRET
    {| authorization := Some (scheme1 ++ " " ++ rest); body := b; user := u |}
  = whatsapp_send twilioPhoneNumber create claims jwt_verify env_JWT_SECRET
      {| authorization := Some (scheme2 ++ " " ++ rest); body := b; user := u |}.
Proof.
  intros H1 H2. unfold whatsapp_send, authenticateToken.
  cbn [authorization body].
  rewrite !token_of_first_field by done.
  destruct (truthy (head (split " " rest))); simpl; [|done].
  by destruct (jwt_verify _ _).
Qed.

Lemma scheme_not_inspected_witness :
  whatsapp_send "+14155238886" sample_create string sample_jwt_verify
    (Some sample_secret)
    {| authorization := Some ("Basic" ++ " " ++ "good.token");
       body := message_body sample_phone "hello"; user := None |}
  = whatsapp_send "+14155238886" sample_create string sample_jwt_verify
      (Some sample_secret)
      {| authorization := Some ("Bearer" ++ " " ++ "good.token");
         body := message_body sample_phone "hello"; user := None |}.
Proof.
  apply (scheme_not_inspected "+14155238886" sample_create string
           sample_jwt_verify (Some sample_secret) "Basic" "Bearer"
           "good.token"); reflexivity.
Defined.

(** X14. Headers the gate answers with 401 whatever [jwt.verify] would
    say: a header without a space (a bare token, or the empty header) and
    a header with two spaces after the scheme word. *)
Theorem malformed_header_unauthenticated (twilioPhoneNumber : string)
    (create : Msg.params → string + Msg.t) (claims : Type)
    (jwt_verify : string → string → option claims)
    (env_JWT_SECRET : option string)
    (h scheme rest : string) (b : Body.t) (u : option claims) :
  (no_space h = true →
   whatsapp_send twilioPhoneNumber create claims jwt_verify env_JWT_SECRET
     {| authorization := Some h; body := b; user := u |} = Unauthenticated)
  ∧ (no_space scheme = true →
     whatsapp_send twilioPhoneNumber create claims jwt_verify env_JWT_SECRET
       {| authorization := Some (scheme ++ " " ++ " " ++ rest);
          body := b; user := u |} = Unauthenticated).
Proof.
  unfold whatsapp_send, authenticateToken. cbn [authorization body]. split.
  - intros Hh. unfold token_of. destruct h as [|c h]; [done|].
    cbn [truthy]. change (str (Some (String c h))) with (String c h).
    by rewrite split_no_space.
  - intros Hs. rewrite token_of_first_field by done.
    change (" " ++ rest) with (EmptyString ++ " " ++ rest).
    by rewrite split_first.
Qed.

Lemma malformed_header_unauthenticated_witness :
  whatsapp_send "+14155238886" sample_create string sample_jwt_verify
    (Some sample_secret)
    {| authorization := Some "good.token";
       body := message_body sample_phone "hello"; user := None |}
  = Unauthenticated
  ∧ whatsapp_send "+14155238886" sample_create string sample_jwt_verify
      (Some sample_secret)
      {| authorization := Some ("Bearer" ++ " " ++ " " ++ "good.token");
         body := message_body sample_phone "hello"; user := None |}
    = Unauthenticated.
Proof.
  destruct (malformed_header_unauthenticated "+14155238886" sample_create
              string sample_jwt_verify (Some sample_secret)
              "good.token" "Bearer" "good.token"
              (message_body sample_phone "hello") None) as [H1 H2].
  split; [apply H1 | apply H2]; reflexivity.
Defined.

(** X15. The answers of the authenticated route to a request whose [to]
    and [body] are each a string or absent, in the order the checks run:
    401 exactly when the header yields no token; 403 exactly when it
    yields one that [jwt.verify] rejects; with an accepted token, 400
    exactly when [to] or [body] is missing or empty, 500 exactly when the
    provider rejects the message and 200 exactly when it accepts it.  So
    the provider's answer shows only behind an accepted token. *)
Theorem whatsapp_send_status_table (twilioPhoneNumber : string)
    (create : Msg.params → string + Msg.t) (claims : Type)
    (jwt_verify : string → string → option claims)
    (env_JWT_SECRET : option string) (req : request claims) :
  let token := token_of (authorization req) in
  let accepted :=
    truthy token = true
    ∧ is_Some (jwt_verify (str token) (JWT_SECRET env_JWT_SECRET)) in
  let complete :=
    truthy (Body.to (body req)) = true
    ∧ truthy (Body.body (body req)) = true in
  let sent :=
    create {| Msg.body := str (Body.body (body req));
              Msg.from := "whatsapp:" ++ twilioPhoneNumber;
              Msg.to := formattedTo (str (Body.to (body req))) |} in
  let st :=
    status_of (whatsapp_send twilioPhoneNumber create claims jwt_verify
                 env_JWT_SECRET req) in
  (st = 401 ↔ truthy token = false)
  ∧ (st = 403 ↔ truthy token = true
                ∧ jwt_verify (str token) (JWT_SECRET env_JWT_SECRET) = None)
  ∧ (st = 400 ↔ accepted ∧ ¬ complete)
  ∧ (st = 500 ↔ accepted ∧ complete ∧ ∃ error, sent = inl error)
  ∧ (st = 200 ↔ accepted ∧ complete ∧ ∃ message, sent = inr message).
Proof.
  intros token accepted complete sent st.
  subst st accepted complete sent. unfold whatsapp_send, authenticateToken.
  fold token. cbn [authorization body]. unfold is_Some.
  destruct (truthy token) eqn:Ht; simpl;
    [|repeat split; try done; firstorder congruence].
  destruct (jwt_verify (str token) (JWT_SECRET env_JWT_SECRET)) as [u|] eqn:Hv;
    simpl; [|repeat split; try done; firstorder congruence].
  unfold dispatch.
  destruct (truthy (Body.to (body req))) eqn:Hto; simpl;
    [|repeat split; try done; firstorder (eauto || congruence)].
  destruct (truthy (Body.body (body req))) eqn:Hb; simpl;
    [|repeat split; try done; firstorder (eauto || congruence)].
  destruct (create _) as [error|message] eqn:Hc; simpl;
    repeat split; try done; firstorder (eauto || congruence).
Qed.

(** * More of the recipient normalisation *)

Lemma append_inj_l (p a b : string) : p ++ a = p ++ b → a = b.
Proof.
  induction p as [|c p IH]; [done|].
  rewrite !append_String. intros [= H]. by apply IH.
Qed.

Lemma formattedTo_prefixed (t : string) :
  startsWith t "whatsapp:" → formattedTo t = t.
Proof.
  intros H. apply prefix_startsWith in H. unfold formattedTo. by rewrite H.
Qed.

Lemma formattedTo_bare (t : string) :
  ¬ startsWith t "whatsapp:" → formattedTo t = "whatsapp:" ++ t.
Proof.
  intros H. unfold formattedTo.
  destruct (String.prefix "whatsapp:" t) eqn:E; [|done].
  by apply prefix_startsWith in E.
Qed.

(** X16. The normalised recipient always starts with ["whatsapp:"], and
    two inputs are sent to the same recipient exactly when they are equal
    or one of them is the other, not yet marked, with ["whatsapp:"] in
    front. *)
Theorem formattedTo_collisions (t t' : string) :
  startsWith (formattedTo t) "whatsapp:"
  ∧ (formattedTo t = formattedTo t'
     ↔ t = t'
       ∨ (¬ startsWith t' "whatsapp:" ∧ t = "whatsapp:" ++ t')
       ∨ (¬ startsWith t "whatsapp:" ∧ t' = "whatsapp:" ++ t)).
Proof.
  split.
  - destruct (decide (String.prefix "whatsapp:" t = true)) as [E|E].
    + apply prefix_startsWith in E. by rewrite formattedTo_prefixed.
    + rewrite formattedTo_bare; [by exists t|].
      intros H. by apply prefix_startsWith in H.
  - destruct (String.prefix "whatsapp:" t) eqn:E;
      destruct (String.prefix "whatsapp:" t') eqn:E'.
    + apply prefix_startsWith in E, E'.
      rewrite !formattedTo_prefixed by done. split; [by left|].
      intros [?|[[? _]|[? _]]]; done.
    + apply prefix_startsWith in E.
      assert (¬ startsWith t' "whatsapp:") as N'.
      { intros H. apply prefix_startsWith in H. congruence. }
      rewrite (formattedTo_prefixed t), (formattedTo_bare t') by done. split.
      * intros ->. right. by left.
      * intros [->|[[_ ?]|[? _]]]; done.
    + apply prefix_startsWith in E'.
      assert (¬ startsWith t "whatsapp:") as N.
      { intros H. apply prefix_startsWith in H. congruence. }
      rewrite (formattedTo_bare t), (formattedTo_prefixed t') by done. split.
      * intros <-. right. by right.
      * intros [->|[[? _]|[_ ?]]]; done.
    + assert (¬ startsWith t "whatsapp:") as N.
      { intros H. apply prefix_startsWith in H. congruence. }
      assert (¬ startsWith t' "whatsapp:") as N'.
      { intros H. apply prefix_startsWith in H. congruence. }
      rewrite !formattedTo_bare by done. split.
      * intros H. left. by apply append_inj_l in H.
      * intros [->|[[_ ->]|[_ ->]]]; [done| |].
        -- destruct N. by exists t'.
        -- destruct N'. by exists t.
Qed.

Lemma length_append (s t : string) :
  String.length (s ++ t) = (String.length s + String.length t)%nat.
Proof.
  induction s as [|c s IH]; [done|].
  rewrite append_String. simpl. by rewrite IH.
Qed.

Lemma append_length_ne (p t : string) : p ≠ EmptyString → p ++ t ≠ t.
Proof.
  intros Hp H. apply (f_equal String.length) in H.
  rewrite length_append in H. destruct p; [done|]. simpl in H. lia.
Qed.

(** X17. The store is keyed by the phone number as it was sent, not by
    the normalised recipient: a code requested for ["whatsapp:" ++ p] goes
    to the same recipient as one for [p], but it is stored under
    ["whatsapp:" ++ p], and a [verify] for [p] does not find it. *)
Theorem store_key_not_normalised (tw : string)
    (create : Msg.params → string + Msg.t) (m : gmap string entry)
    (t0 : Z) (r : Q) (p : string) (now : Z) (s : string) :
  ¬ startsWith p "whatsapp:" → m !! p = None →
  let m1 := (send_code tw create m t0 r (phone_body ("whatsapp:" ++ p))).2 in
  formattedTo ("whatsapp:" ++ p) = formattedTo p
  ∧ m1 !! ("whatsapp:" ++ p)
    = Some {| code := generate_code r; expiresAt := t0 + 300000 |}
  ∧ verify m1 now p s = (InvalidOrExpired, m1).
Proof.
  intros Hp Hm m1. subst m1.
  rewrite send_code_stores by reflexivity. rewrite issue_store.
  change (str (Body.phoneNumber (phone_body ("whatsapp:" ++ p))))
    with ("whatsapp:" ++ p).
  split; [|split].
  - rewrite (formattedTo_bare p) by done.
    apply formattedTo_prefixed. by exists p.
  - apply lookup_insert_eq.
  - apply verify_absent. rewrite lookup_insert_ne; [done|].
    by apply append_length_ne.
Qed.

Lemma store_key_not_normalised_witness :
  let m1 := (send_code "+14155238886" sample_create ∅ 1000 (1 # 2)
               (phone_body ("whatsapp:" ++ sample_phone))).2 in
  formattedTo ("whatsapp:" ++ sample_phone) = formattedTo sample_phone
  ∧ m1 !! ("whatsapp:" ++ sample_phone)
    = Some {| code := generate_code (1 # 2); expiresAt := 1000 + 300000 |}
  ∧ verify m1 2000 sample_phone "550000" = (InvalidOrExpired, m1).
Proof.
  apply (store_key_not_normalised "+14155238886" sample_create ∅ 1000 (1 # 2)
           sample_phone 2000 "550000").
  - intros [rest Hrest]. unfold sample_phone in Hrest.
    rewrite append_String in Hrest. discriminate.
  - apply lookup_empty.
Defined.

(** * The two message routes, and the range of codes *)

(** X18. The gate is all that separates the two message routes: the
    authenticated route answers 401, or 403, or exactly what the public
    route answers to the same body; and the public route, which has no
    gate, never answers 401 or 403. *)
Theorem public_route_is_ungated_route (twilioPhoneNumber : string)
    (create : Msg.params → string + Msg.t) (claims : Type)
    (jwt_verify : string → string → option claims)
    (env_JWT_SECRET : option string) (req : request claims) :
  (whatsapp_send twilioPhoneNumber create claims jwt_verify env_JWT_SECRET req
   = Unauthenticated
   ∨ whatsapp_send twilioPhoneNumber create claims jwt_verify env_JWT_SECRET
       req = Forbidden
   ∨ whatsapp_send twilioPhoneNumber create claims jwt_verify env_JWT_SECRET
       req = send_message twilioPhoneNumber create (body req))
  ∧ status_of (send_message twilioPhoneNumber create (body req)) ≠ 401
  ∧ status_of (send_message twilioPhoneNumber create (body req)) ≠ 403.
Proof.
  split.
  - unfold whatsapp_send, authenticateToken, send_message.
    destruct (truthy (token_of (authorization req))); simpl; [|by left].
    destruct (jwt_verify _ _); [|right; by left].
    right. by right.
  - unfold send_message, dispatch.
    destruct (negb (truthy (Body.to (body req)))
              || negb (truthy (Body.body (body req)))); [done|].
    by destruct (create _).
Qed.

Lemma draw_for_code (n : Z) :
  100000 ≤ n ≤ 999999 →
  let r := round64 ((inject_Z n - 100000 + (1 # 2)) / 900000) in
  binary64 r ∧ (0 <= r)%Q ∧ (r < 1)%Q
  ∧ Qfloor (round64 (100000 + round64 (r * 900000))) = n.
Proof.
  intros [Hn1 Hn2] r.
  set (r0 := ((inject_Z n - 100000 + (1 # 2)) / 900000)%Q) in *.
  assert (r0 * 900000 == inject_Z n - 100000 + (1 # 2))%Q as Hr0.
  { unfold r0. field. }
  rewrite Zle_Qle in Hn1, Hn2.
  change (inject_Z 100000) with 100000%Q in Hn1.
  change (inject_Z 999999) with 999999%Q in Hn2.
  set (a := inject_Z n) in *.
  assert (pow2 (-54) == 1 # 18014398509481984)%Q as H54 by reflexivity.
  assert (pow2 (-34) == 1 # 17179869184)%Q as H34 by reflexivity.
  assert (pow2 0 == 1)%Q as P0 by reflexivity.
  assert (pow2 20 == 1048576)%Q as P20 by reflexivity.
  assert (pow2 1023 >= 1)%Q as P1023 by (vm_compute; discriminate).
  assert (0 < r0)%Q as R0 by Lqa.lra.
  destruct (round64_error_below r0 0) as [Er1 Er2]; [done | Lqa.lra |].
  change (fexp (0 - 1) - 1) with (-54) in Er1, Er2. fold r in Er1, Er2.
  rewrite H54 in Er1, Er2.
  set (p := (r * 900000)%Q).
  assert (0 < p)%Q as Hp0 by (unfold p; Lqa.lra).
  destruct (round64_error_below p 20) as [Ey1 Ey2];
    [done | unfold p; Lqa.lra |].
  change (fexp (20 - 1) - 1) with (-34) in Ey1, Ey2.
  rewrite H34 in Ey1, Ey2.
  set (y := round64 p) in *.
  set (s := (100000 + y)%Q).
  assert (0 < s)%Q as Hs0 by (unfold s, p in *; Lqa.lra).
  destruct (round64_error_below s 20) as [Ev1 Ev2];
    [done | unfold s, p in *; Lqa.lra |].
  change (fexp (20 - 1) - 1) with (-34) in Ev1, Ev2.
  rewrite H34 in Ev1, Ev2.
  split; [|split; [|split]].
  - apply round64_binary64; Lqa.lra.
  - Lqa.lra.
  - Lqa.lra.
  - apply Qfloor_between; fold a; unfold s, p in *; Lqa.lra.
Qed.

(** X19. Every six-digit code can be issued, and different integers give
    different codes: for each integer from 100000 to 999999 there is a
    double in [0, 1) that [Math.random()] may return and for which line
    55, with its roundings, gives the decimal string of that integer. *)
Theorem generate_code_onto (n n' : Z) :
  100000 ≤ n ≤ 999999 →
  (∃ r : Q, binary64 r ∧ (0 <= r)%Q ∧ (r < 1)%Q
            ∧ generate_code r = toString n)
  ∧ (n ≠ n' → toString n ≠ toString n').
Proof.
  intros Hn. split.
  - destruct (draw_for_code n Hn) as (Hb & H0 & H1 & Hf).
    eexists. split; [exact Hb|]. split; [exact H0|]. split; [exact H1|].
    unfold generate_code. by rewrite Hf.
  - intros Hne H. apply Hne. unfold toString in H.
    by apply (inj pretty) in H.
Qed.

Lemma generate_code_onto_witness :
  (∃ r : Q, binary64 r ∧ (0 <= r)%Q ∧ (r < 1)%Q
            ∧ generate_code r = toString 999999)
  ∧ (999999 ≠ 100000 → toString 999999 ≠ toString 100000).
Proof. apply (generate_code_onto 999999 100000). lia. Defined.
